(** * ts-downloader: chunked, batched, retrying HTTP download

    A shallow embedding of [src/downloader/*.ts] and the properties of its
    planner ([determineNumberOfChunks], [createChunks], [batchChunks]), of
    its segments ([DownloadChunk]) and of its retry loop
    ([DownloadImplementation.download], [Downloader.download]).

    Conventions of the embedding.
    - A JavaScript [number] is an integer or one of [Infinity], [-Infinity],
      [NaN]: these are the values the code computes from integer inputs
      (a quotient by zero, a header that does not parse).  Fractions, signed
      zero and integers beyond 2^53 are outside the model; on safe integers
      [Math.ceil (a / b)] is the exact ceiling of the quotient.
    - Objects that the code mutates and shares live in a store: the
      [DownloadChunk]s of one download in a heap addressed by references,
      the [DownloaderConfig] of a [Downloader] as a value threaded through
      its calls.
    - A promise is embedded by its settlement: a value of a sum type,
      together with the store it leaves behind.  Inside a batch the code is
      sequential.  Across batches the settlement of [Promise.all] depends on
      the schedule: the retry loop is embedded over an arbitrary execution
      step (a [Scheduler]), so that its properties hold for every schedule,
      and concrete runs use the schedule in which the batches settle in the
      order of the list.
    - The passes of the retry loop are recorded as they run ([Attempt]),
      next to the events sent to the server and to the file system
      ([Event]); both are ghost state, for the statements only. *)

From Stdlib Require Import ZArith List Bool Lia String Ascii.
From Stdlib Require Import Numbers.DecimalString Numbers.DecimalPos Numbers.DecimalZ.
Import ListNotations.

Local Open Scope string_scope.
Local Open Scope Z_scope.

Set Implicit Arguments.

(* ================================================================== *)
(** ** JavaScript numbers *)

Module Js.

Inductive number : Type :=
| Int (z : Z)
| PInf
| NInf
| NaN.

Definition eq_dec (a b : number) : {a = b} + {a <> b}.
Proof. decide equality; apply Z.eq_dec. Defined.

(** [a <= b] *)
Definition le (a b : number) : bool :=
  match a, b with
  | NaN, _ | _, NaN => false
  | NInf, _ => true
  | _, PInf => true
  | Int x, Int y => x <=? y
  | _, _ => false
  end.

(** [a < b] *)
Definition lt (a b : number) : bool :=
  match a, b with
  | NaN, _ | _, NaN => false
  | PInf, _ => false
  | _, NInf => false
  | Int x, Int y => x <? y
  | _, _ => true
  end.

(** [a >= b] *)
Definition ge (a b : number) : bool := le b a.

(** [a > b] *)
Definition gt (a b : number) : bool := lt b a.

Definition neg (a : number) : number :=
  match a with
  | Int x => Int (- x)
  | PInf => NInf
  | NInf => PInf
  | NaN => NaN
  end.

(** [a + b] *)
Definition add (a b : number) : number :=
  match a, b with
  | NaN, _ | _, NaN => NaN
  | Int x, Int y => Int (x + y)
  | PInf, NInf | NInf, PInf => NaN
  | PInf, _ | _, PInf => PInf
  | NInf, _ | _, NInf => NInf
  end.

(** [a - b] *)
Definition sub (a b : number) : number := add a (neg b).

Definition signed_inf (s : Z) : number :=
  if s =? 0 then NaN else if 0 <? s then PInf else NInf.

Definition sgn (a : number) : Z :=
  match a with
  | Int x => Z.sgn x
  | PInf => 1
  | NInf => -1
  | NaN => 0
  end.

(** [a * b]; an infinity times zero is [NaN]. *)
Definition mul (a b : number) : number :=
  match a, b with
  | NaN, _ | _, NaN => NaN
  | Int x, Int y => Int (x * y)
  | _, _ => signed_inf (sgn a * sgn b)
  end.

(** The ceiling of the rational [a / b], for [b <> 0]. *)
Definition cdiv (a b : Z) : Z := - ((- a) / b).

(** [Math.ceil (a / b)].  A finite quotient by zero is an infinity of the
    sign of the dividend, [0 / 0] is [NaN]; a finite quotient by an
    infinity is zero. *)
Definition ceil_div (a b : number) : number :=
  match a, b with
  | NaN, _ | _, NaN => NaN
  | Int x, Int y => if y =? 0 then signed_inf x else Int (cdiv x y)
  | Int _, _ => Int 0
  | _, Int y => signed_inf (sgn a * (if y <? 0 then -1 else 1))
  | _, _ => NaN
  end.

Definition Z_to_string (z : Z) : string :=
  NilZero.string_of_int (Z.to_int z).

(** Template-literal interpolation [`${x}`] of a number. *)
Definition toString (a : number) : string :=
  match a with
  | Int z => Z_to_string z
  | PInf => "Infinity"
  | NInf => "-Infinity"
  | NaN => "NaN"
  end.

(** *** [parseInt] *)

(** The white space that [parseInt] skips (its ASCII part). *)
Definition isWhiteSpace (c : ascii) : bool :=
  let n := nat_of_ascii c in
  ((9 <=? n)%nat && (n <=? 13)%nat) || (n =? 32)%nat.

Fixpoint skipWhiteSpace (s : string) : string :=
  match s with
  | String c s' => if isWhiteSpace c then skipWhiteSpace s' else s
  | EmptyString => s
  end.

(** The value of a digit in the given radix, when it is one. *)
Definition digitValue (radix : Z) (c : ascii) : option Z :=
  let n := Z.of_nat (nat_of_ascii c) in
  let v := if (48 <=? n) && (n <=? 57) then Some (n - 48)
           else if (97 <=? n) && (n <=? 122) then Some (n - 87)
           else if (65 <=? n) && (n <=? 90) then Some (n - 55)
           else None in
  match v with
  | Some d => if d <? radix then Some d else None
  | None => None
  end.

(** The longest prefix of digits, accumulated; [None] while no digit has
    been read. *)
Fixpoint parseDigits (radix : Z) (acc : option Z) (s : string) : option Z :=
  match s with
  | String c s' =>
      match digitValue radix c with
      | Some d =>
          parseDigits radix
            (Some (match acc with Some a => a * radix + d | None => d end)) s'
      | None => acc
      end
  | EmptyString => acc
  end.

Definition stripHexPrefix (s : string) : option string :=
  match s with
  | String "0" (String "x" s') => Some s'
  | String "0" (String "X" s') => Some s'
  | _ => None
  end.

(** [parseInt(s)] with no radix argument. *)
Definition parseInt (s : string) : number :=
  let s1 := skipWhiteSpace s in
  let '(sign, s2) :=
    match s1 with
    | String "-" r => (-1, r)
    | String "+" r => (1, r)
    | _ => (1, s1)
    end in
  let '(radix, s3) :=
    match stripHexPrefix s2 with
    | Some r => (16, r)
    | None => (10, s2)
    end in
  match parseDigits radix None s3 with
  | Some v => Int (sign * v)
  | None => NaN
  end.

End Js.

Import Js.


(* ================================================================== *)
(** ** Thrown values *)

(** What the code throws.  A constructor stands for one [new Error (...)] of
    the source and records the values interpolated into its message; the
    JavaScript object only keeps the message, computed by [message].
    [External] is an exception object raised by the runtime ([fetch], the
    body read, [fs]), known by the text it interpolates to: the runtime
    raises nothing else. *)
Inductive Thrown : Type :=
| External (rendering : string)
(* getContentLength *)
| FileNotFound (url : string)
| AccessDenied (url : string)
| Unauthorized (url : string)
| RangeNotSatisfiable (url : string)
| ContentLengthStatus (url : string) (status : Z)
| ContentLengthError (url : string) (cause : Thrown)
(* getFileSize *)
| FileSizeFailed (url : string) (cause : Thrown)
(* downloadPart *)
| RangeUnsupported
| PartStatus (status : Z)
| PartFailed (cause : Thrown)
(* downloadBatch *)
| BatchFailed (cause : Thrown)
(* DownloadImplementation.download, Downloader.download *)
| DownloadFailed (url out : string) (cause : Thrown)
(* FileWriter.writeAt *)
| WriteFailed (off : number) (size : Z) (cause : Thrown).

(** The [message] of the error and its interpolation [`${e}`]. *)
Fixpoint message (e : Thrown) : string :=
  let show (c : Thrown) : string :=
    match c with
    | External r => r
    | _ => "Error: " ++ message c
    end in
  match e with
  | External r => r
  | FileNotFound url => "File not found at " ++ url
  | AccessDenied url => "Access denied to file at " ++ url
  | Unauthorized url => "Unauthorized to access file at " ++ url
  | RangeNotSatisfiable url =>
      "Requested range not satisfiable for file at " ++ url
  | ContentLengthStatus url status =>
      "Failed to get content length of file at " ++ url
      ++ "; status code: " ++ Z_to_string status
  | ContentLengthError url c =>
      "Failed to get content length of file at " ++ url ++ "; error: " ++ show c
  | FileSizeFailed url c =>
      "Failed to get file size of file at " ++ url ++ "; error: " ++ show c
  | RangeUnsupported => "Server does not support range requests"
  | PartStatus status =>
      "Failed to download part; status code: " ++ Z_to_string status
  | PartFailed c => "Failed to download part; error: " ++ show c
  | BatchFailed c => "Failed to download batch; error: " ++ show c
  | DownloadFailed url out c =>
      "Failed to download file from " ++ url ++ " to " ++ out
      ++ "; error: " ++ show c
  | WriteFailed off size c =>
      "Failed to write to file at offset " ++ toString off
      ++ "; size: " ++ Z_to_string size ++ "; error: " ++ show c
  end.


(** The settlement of a promise: fulfilled with a value or rejected. *)
Definition Settled (A : Type) : Type := (A + Thrown)%type.

(* ================================================================== *)
(** ** interface.ts *)

Definition Buffer : Type := list Byte.byte.

(** [interface WriteAt]: [writeAt (p, off)] settles with the number of bytes
    written or rejects. *)
Record WriteAt : Type := {
  writeAt : Buffer -> number -> Settled number
}.

(** [type DownloaderConfig].  The bounds are integers; [chunkSizeB] is a
    [number] because planning writes a quotient into it.  A part count is an
    integer, so [partDeterminer] is integer valued. *)
Record DownloaderConfig : Type := {
  maxRetries : Z;
  maxConcurrentDownloads : Z;
  partDeterminer : number -> Z;
  chunkSizeDeterminer : number -> Z;
  chunkSizeB : number
}.

Definition set_chunkSizeB (cfg : DownloaderConfig) (v : number)
  : DownloaderConfig :=
  {| maxRetries := maxRetries cfg;
     maxConcurrentDownloads := maxConcurrentDownloads cfg;
     partDeterminer := partDeterminer cfg;
     chunkSizeDeterminer := chunkSizeDeterminer cfg;
     chunkSizeB := v |}.

(* ================================================================== *)
(** ** file_writer.ts *)

(** [fs.openSync], [fs.writeSync] and [fs.closeSync] on a path: the count
    [writeSync] returns, or the exception one of the three raises. *)
Definition FileSystem : Type := string -> Buffer -> number -> number + string.

Definition FileWriter (fs : FileSystem) (filePath : string) : WriteAt :=
  {| writeAt := fun p off =>
       match fs filePath p off with
       | inl writtenBytes => inl writtenBytes
       | inr e => inr (WriteFailed off (Z.of_nat (List.length p)) (External e))
       end |}.

(* ================================================================== *)
(** ** download_chunk.ts *)

Record DownloadChunk : Type := {
  writer : WriteAt;
  start : number;
  size : number;
  current : number
}.

Definition getStartOffset (c : DownloadChunk) : number := start c.

Definition set_current (c : DownloadChunk) (v : number) : DownloadChunk :=
  {| writer := writer c; start := start c; size := size c; current := v |}.

(** A call of the writer, as [write] makes it. *)
Record WriteCall : Type := {
  wc_buffer : Buffer;
  wc_offset : number
}.

(** [DownloadChunk.write (p)]: the settlement, the chunk after the call and
    the call made to the writer, if any. *)
Definition write (c : DownloadChunk) (p : Buffer)
  : Settled number * DownloadChunk * option WriteCall :=
  if ge (current c) (size c) then
    (inl (Int 0), c, None)
  else
    let off := add (start c) (current c) in
    let call := Some {| wc_buffer := p; wc_offset := off |} in
    match writeAt (writer c) p off with
    | inl n => (inl n, set_current c (add (current c) n), call)
    | inr e => (inr e, c, call)
    end.

(** [DownloadChunk.getRange ()] *)
Definition getRange (c : DownloadChunk) : string :=
  "bytes=" ++ toString (start c) ++ "-"
  ++ toString (sub (add (start c) (size c)) (Int 1)).

(* ================================================================== *)
(** ** The world of one download *)

(** A reference to a [DownloadChunk] object: its address in the heap. *)
Definition ref : Type := nat.

(** What the download does to the outside, in the order it does it. *)
Inductive Event : Type :=
| EvHead (url : string)
| EvPartDeterminer (fileSize : number)
| EvGet (url range : string)
| EvWriteAt (call : WriteCall).

(** The objects and the trace of one [download] call: the chunk objects it
    has created and the events so far.  The configuration object, which the
    call shares with its [Downloader], is passed and returned explicitly. *)
Record World : Type := {
  heap : list DownloadChunk;
  log : list Event
}.

Definition emptyWorld : World := {| heap := []; log := [] |}.

(** An asynchronous computation, by its settlement and the world it leaves. *)
Definition Async (A : Type) : Type := World -> Settled A * World.

Definition ret {A : Type} (a : A) : Async A := fun w => (inl a, w).

Definition throw {A : Type} (e : Thrown) : Async A := fun w => (inr e, w).

Definition bind {A B : Type} (m : Async A) (k : A -> Async B) : Async B :=
  fun w =>
    match m w with
    | (inl a, w') => k a w'
    | (inr e, w') => (inr e, w')
    end.

(** [try { m } catch (e) { h e }] *)
Definition tryCatch {A : Type} (m : Async A) (h : Thrown -> Async A) : Async A :=
  fun w =>
    match m w with
    | (inl a, w') => (inl a, w')
    | (inr e, w') => h e w'
    end.

Definition emit (ev : Event) : Async unit :=
  fun w => (inl tt, {| heap := heap w; log := log w ++ [ev] |}).

Declare Scope async_scope.
Delimit Scope async_scope with async.
Notation "x <- m ;; k" := (bind m (fun x => k))
  (at level 61, m at next level, right associativity) : async_scope.
Notation "m ;;; k" := (bind m (fun _ => k))
  (at level 61, right associativity) : async_scope.
Local Open Scope async_scope.

(** Reading a chunk object through its reference; a dangling reference is
    the [TypeError] of a property access on [undefined]. *)
Definition deref (r : ref) : Async DownloadChunk :=
  fun w =>
    match nth_error (heap w) r with
    | Some c => (inl c, w)
    | None => (inr (External "TypeError: Cannot read properties of undefined"), w)
    end.

Fixpoint replace_nth {A : Type} (n : nat) (x : A) (l : list A) : list A :=
  match l, n with
  | [], _ => []
  | _ :: t, O => x :: t
  | h :: t, S n' => h :: replace_nth n' x t
  end.

Definition assign (r : ref) (c : DownloadChunk) : Async unit :=
  fun w => (inl tt, {| heap := replace_nth r c (heap w); log := log w |}).

(** [chunk.write (p)] on the object behind a reference. *)
Definition writeRef (r : ref) (p : Buffer) : Async number :=
  c <- deref r ;;
  match write c p with
  | (res, c', call) =>
      match call with
      | Some wc => emit (EvWriteAt wc)
      | None => ret tt
      end ;;;
      assign r c' ;;;
      match res with
      | inl n => ret n
      | inr e => throw e
      end
  end.

(* ================================================================== *)
(** ** The server and the file system *)

(** How [fetch (url, {method: 'HEAD'})] settles: a response, with its
    [content-length] header if it has one, or a thrown value, which the
    code tests for being a [Response]. *)
Inductive HeadOutcome : Type :=
| HeadResponse (contentLength : option string)
| HeadThrowsResponse (status : Z)
| HeadThrows (rendering : string).

(** How a ranged [fetch] settles: a response with its status and the
    settlement of [response.arrayBuffer ()], or a thrown value. *)
Inductive GetOutcome : Type :=
| GetResponse (status : Z) (body : Buffer + string)
| GetThrows (rendering : string).

(** The environment of one [download] call.  The answer to a ranged request
    depends on the attempt that makes it and on its [Range] header. *)
Record Env : Type := {
  head : HeadOutcome;
  get : nat -> string -> GetOutcome;
  fs : FileSystem
}.

(* ================================================================== *)
(** ** downloader.ts: class DownloadImplementation *)

(** The number of iterations of [for (let i = 0; i < n; i++)]; the loop does
    not end when [n] is [Infinity]. *)
Definition iterations (n : number) : option nat :=
  match n with
  | Int z => Some (Z.to_nat z)
  | PInf => None
  | NInf | NaN => Some O
  end.

(** [Array.prototype.slice (from, to)] *)
Definition slice {A : Type} (from to : Z) (l : list A) : list A :=
  let len := Z.of_nat (List.length l) in
  let rel (i : Z) := if i <? 0 then Z.max (len + i) 0 else Z.min i len in
  let k := rel from in
  firstn (Z.to_nat (Z.max (rel to - k) 0)) (skipn (Z.to_nat k) l).

(** The loop of [batchChunks]: [for (i = 0; i < chunks.length; i += step)],
    pushing [chunks.slice (i, i + step)].  [fuel] bounds the iterations; the
    result is [None] if the bound is reached before the loop ends. *)
Fixpoint batchLoop {A : Type} (fuel : nat) (i step : Z) (chunks : list A)
  : option (list (list A)) :=
  if i <? Z.of_nat (List.length chunks) then
    match fuel with
    | O => None
    | S fuel' =>
        match batchLoop fuel' (i + step) step chunks with
        | Some batches => Some (slice i (i + step) chunks :: batches)
        | None => None
        end
    end
  else Some [].

(** The loop of [createChunks], from index [i] for [n] more iterations. *)
Fixpoint createLoop (chunkSize : number) (w : WriteAt) (n : nat) (i : Z)
  : list DownloadChunk :=
  match n with
  | O => []
  | S n' =>
      {| writer := w; start := mul (Int i) chunkSize; size := chunkSize;
         current := Int 0 |} :: createLoop chunkSize w n' (i + 1)
  end.

(** A computation that may not end. *)
Inductive Outcome (A : Type) : Type :=
| Fulfilled (a : A)
| Rejected (e : Thrown)
| Hangs.
Arguments Fulfilled {A} a.
Arguments Rejected {A} e.
Arguments Hangs {A}.

(** One pass of the retry loop, as it ran: the batches it was given, the
    world before and after, and how [Promise.all] settled. *)
Record Attempt : Type := {
  at_index : nat;
  at_batches : list (list ref);
  at_before : World;
  at_settled : Settled (list number);
  at_after : World
}.

(** What a [download] call leaves: its settlement, the configuration object
    and the world after it, and the passes of the retry loop in order. *)
Record Run : Type := {
  outcome : Outcome number;
  config_after : DownloaderConfig;
  world : World;
  attempts : list Attempt
}.

Section DownloadImplementation.

Variable env : Env.
Variables url out : string.

(** [getContentLength ()] *)
Definition getContentLength : Async string :=
  emit (EvHead url) ;;;
  match head env with
  | HeadResponse contentLength =>
      ret (match contentLength with
           | Some EmptyString | None => "0"
           | Some s => s
           end)
  | HeadThrowsResponse status =>
      if status =? 404 then throw (FileNotFound url)
      else if status =? 403 then throw (AccessDenied url)
      else if status =? 401 then throw (Unauthorized url)
      else if status =? 416 then throw (RangeNotSatisfiable url)
      else throw (ContentLengthStatus url status)
  | HeadThrows e => throw (ContentLengthError url (External e))
  end.

(** [getFileSize ()] *)
Definition getFileSize : Async number :=
  tryCatch
    (contentLength <- getContentLength ;;
     ret (parseInt contentLength))
    (fun e => throw (FileSizeFailed url e)).

(** [determineNumberOfChunks (fileSize)] on the configuration [cfg]: the
    count, and the configuration object after the call. *)
Definition determineNumberOfChunks (cfg : DownloaderConfig) (fileSize : number)
  : Async (number * DownloaderConfig) :=
  if le (chunkSizeB cfg) (Int 0) then
    emit (EvPartDeterminer fileSize) ;;;
    let numberOfChunks := Int (partDeterminer cfg fileSize) in
    let cfg' := set_chunkSizeB cfg (ceil_div fileSize numberOfChunks) in
    ret (numberOfChunks, cfg')
  else
    let numberOfChunks := ceil_div fileSize (chunkSizeB cfg) in
    ret (numberOfChunks, cfg).

(** [createChunks (numberOfChunks, w)]: the references of the new chunk
    objects, or [None] when the loop does not end. *)
Definition createChunks (cfg : DownloaderConfig) (numberOfChunks : number)
    (wr : WriteAt) (w : World) : option (list ref * World) :=
  match iterations numberOfChunks with
  | Some n =>
      let chunks := createLoop (chunkSizeB cfg) wr n 0 in
      Some (seq (List.length (heap w)) n,
            {| heap := heap w ++ chunks; log := log w |})
  | None => None
  end.

(** [batchChunks (chunks)]; [None] when its loop does not end. *)
Definition batchChunks {A : Type} (cfg : DownloaderConfig) (chunks : list A)
  : option (list (list A)) :=
  if maxConcurrentDownloads cfg <=? 0 then
    Some (map (fun chunk => [chunk]) chunks)
  else if Z.of_nat (List.length chunks) <=? maxConcurrentDownloads cfg then
    Some (map (fun chunk => [chunk]) chunks)
  else
    let numberChunksPerBatch :=
      cdiv (Z.of_nat (List.length chunks)) (maxConcurrentDownloads cfg) in
    batchLoop (List.length chunks) 0 numberChunksPerBatch chunks.

(** [downloadPart (chunk)] in attempt [i]. *)
Definition downloadPart (i : nat) (chunk : ref) : Async number :=
  tryCatch
    (c <- deref chunk ;;
     let range := getRange c in
     emit (EvGet url range) ;;;
     match get env i range with
     | GetThrows e => throw (External e)
     | GetResponse status body =>
         if status =? 200 then throw RangeUnsupported
         else if status =? 206 then
           match body with
           | inl p => writeRef chunk p
           | inr e => throw (External e)
           end
         else throw (PartStatus status)
     end)
    (fun e => throw (PartFailed e)).

(** The loop of [downloadBatch]. *)
Fixpoint batchSum (i : nat) (batch : list ref) (writtenBytes : number)
  : Async number :=
  match batch with
  | [] => ret writtenBytes
  | chunk :: rest =>
      bytesWritten <- downloadPart i chunk ;;
      batchSum i rest (add writtenBytes bytesWritten)
  end.

(** [downloadBatch (batch)] in attempt [i]. *)
Definition downloadBatch (i : nat) (batch : list ref) : Async number :=
  tryCatch (batchSum i batch (Int 0)) (fun e => throw (BatchFailed e)).

(** [batches.map ((batch) => this.downloadBatch (batch))], every promise run
    to its settlement, the batches settling in the order of the list. *)
Fixpoint settleInOrder (i : nat) (batches : list (list ref)) (w : World)
  : list (Settled number) * World :=
  match batches with
  | [] => ([], w)
  | batch :: rest =>
      let '(r, w1) := downloadBatch i batch w in
      let '(rs, w2) := settleInOrder i rest w1 in
      (r :: rs, w2)
  end.

(** [Promise.all]: the values when every promise is fulfilled, else the
    first rejection. *)
Fixpoint promiseAll {A : Type} (settled : list (Settled A)) : Settled (list A) :=
  match settled with
  | [] => inl []
  | inr e :: _ => inr e
  | inl a :: rest =>
      match promiseAll rest with
      | inl l => inl (a :: l)
      | inr e => inr e
      end
  end.

(** [await Promise.all (batches.map (...))] of attempt [i], under the
    schedule in which the batches settle in the order of the list. *)
Definition awaitAllInOrder (i : nat) (batches : list (list ref))
  : Async (list number) :=
  fun w => let '(rs, w') := settleInOrder i batches w in (promiseAll rs, w').

Section RetryLoop.

(** How [await Promise.all (promises)] of attempt [i] settles and what it
    leaves, under whatever schedule. *)
Variable awaitAll : nat -> list (list ref) -> Async (list number).

(** The retry loop of [download], with [remaining] passes to go. *)
Fixpoint retryLoop (remaining i : nat) (batches : list (list ref))
    (writtenBytes : number) (error : option Thrown) (w : World)
  : number * option Thrown * World * list Attempt :=
  match remaining with
  | O => (writtenBytes, error, w, [])
  | S remaining' =>
      let '(settled, w') := awaitAll i batches w in
      let this := {| at_index := i; at_batches := batches; at_before := w;
                     at_settled := settled; at_after := w' |} in
      match settled with
      | inl results =>
          (fold_left add results (Int 0), None, w', [this])
      | inr e =>
          let '(wb, err, w'', rest) :=
            retryLoop remaining' (S i) batches writtenBytes (Some e) w' in
          (wb, err, w'', this :: rest)
      end
  end.

(** [DownloadImplementation.download ()] *)
Definition download (cfg : DownloaderConfig) (w0 : World) : Run :=
  let failed (e : Thrown) (cfg' : DownloaderConfig) (w : World) :=
    {| outcome := Rejected (DownloadFailed url out e);
       config_after := cfg'; world := w; attempts := [] |} in
  match getFileSize w0 with
  | (inr e, w1) => failed e cfg w1
  | (inl fileSize, w1) =>
      match determineNumberOfChunks cfg fileSize w1 with
      | (inr e, w2) => failed e cfg w2
      | (inl (numberOfChunks, cfg'), w2) =>
          let fileWriter := FileWriter (fs env) out in
          match createChunks cfg' numberOfChunks fileWriter w2 with
          | None => {| outcome := Hangs; config_after := cfg'; world := w2;
                       attempts := [] |}
          | Some (chunks, w3) =>
              match batchChunks cfg' chunks with
              | None => {| outcome := Hangs; config_after := cfg';
                           world := w3; attempts := [] |}
              | Some batches =>
                  let '(writtenBytes, error, w4, passes) :=
                    retryLoop (Z.to_nat (maxRetries cfg')) 0 batches
                      (Int 0) None w3 in
                  {| outcome := match error with
                                | Some e => Rejected (DownloadFailed url out e)
                                | None => Fulfilled writtenBytes
                                end;
                     config_after := cfg'; world := w4; attempts := passes |}
              end
          end
      end
  end.

End RetryLoop.

End DownloadImplementation.

(* ================================================================== *)
(** ** downloader.ts: class Downloader *)

(** The execution step, for every environment and target. *)
Definition Scheduler : Type :=
  Env -> string -> nat -> list (list ref) -> Async (list number).

Definition inOrder : Scheduler := fun env url => awaitAllInOrder env url.

(** [Downloader.download (url, filePath)] on the configuration object [cfg]
    of the [Downloader]. *)
Definition Downloader_download (sched : Scheduler) (env : Env)
    (cfg : DownloaderConfig) (url filePath : string) : Run :=
  let r := download env url filePath (sched env url) cfg emptyWorld in
  {| outcome := match outcome r with
                | Rejected e => Rejected (DownloadFailed url filePath e)
                | o => o
                end;
     config_after := config_after r;
     world := world r;
     attempts := attempts r |}.

(** Successive [download] calls on one [Downloader]: the configuration
    object of each call is the one the call before left. *)
Fixpoint Downloader_downloads (sched : Scheduler) (cfg : DownloaderConfig)
    (calls : list (Env * string * string)) : list Run :=
  match calls with
  | [] => []
  | (env, url, filePath) :: rest =>
      let r := Downloader_download sched env cfg url filePath in
      r :: Downloader_downloads sched (config_after r) rest
  end.

Definition MB : Z := 1024 * 1024.

(** [defaultDownloaderConfig ()] *)
Definition defaultDownloaderConfig : DownloaderConfig :=
  {| chunkSizeB := Int (-1);
     maxConcurrentDownloads := 32;
     partDeterminer := fun fileSize =>
       if lt fileSize (Int (1 * MB)) then 1
       else if lt fileSize (Int (10 * MB)) then 4
       else if lt fileSize (Int (100 * MB)) then 16
       else 32;
     chunkSizeDeterminer := fun fileSize =>
       if lt fileSize (Int (1 * MB)) then 1 * MB
       else if lt fileSize (Int (10 * MB)) then 2 * MB
       else if lt fileSize (Int (100 * MB)) then 10 * MB
       else 20 * MB;
     maxRetries := 3 |}.

(* ================================================================== *)
(** ** Scenarios *)

(** A file system on which every write succeeds in full. *)
Definition okFs : FileSystem :=
  fun _ p _ => inl (Int (Z.of_nat (List.length p))).

Definition body100 : Buffer := repeat Byte.x00 100.

(** A fixed segment size of 100 bytes. *)
Definition fixed100 : DownloaderConfig :=
  set_chunkSizeB defaultDownloaderConfig (Int 100).

(** One batch for all segments, two attempts. *)
Definition oneBatchTwoTries : DownloaderConfig :=
  {| maxRetries := 2; maxConcurrentDownloads := 1;
     partDeterminer := partDeterminer defaultDownloaderConfig;
     chunkSizeDeterminer := chunkSizeDeterminer defaultDownloaderConfig;
     chunkSizeB := Int 100 |}.

(** A server that honours every range request. *)
Definition serverOk (contentLength : option string) : Env :=
  {| head := HeadResponse contentLength;
     get := fun _ _ => GetResponse 206 (inl body100);
     fs := okFs |}.

(** A server that ignores the [Range] header. *)
Definition serverNoRange (contentLength : option string) : Env :=
  {| head := HeadResponse contentLength;
     get := fun _ _ => GetResponse 200 (inl body100);
     fs := okFs |}.

(** A 200-byte resource whose second segment fails once, with status 500,
    in the first attempt. *)
Definition serverFlaky : Env :=
  {| head := HeadResponse (Some "200");
     get := fun i range =>
       if (Nat.eqb i 0 && String.eqb range "bytes=100-199")%bool
       then GetResponse 500 (inl [])
       else GetResponse 206 (inl body100);
     fs := okFs |}.

(** A file system on which the destination cannot be opened. *)
Definition deniedFs : FileSystem :=
  fun _ _ _ => inr "Error: EACCES: permission denied, open 'out'".

(** A configuration whose part count is negative. *)
Definition negativeParts : DownloaderConfig :=
  {| maxRetries := 3; maxConcurrentDownloads := 32;
     partDeterminer := fun _ => -1;
     chunkSizeDeterminer := chunkSizeDeterminer defaultDownloaderConfig;
     chunkSizeB := Int (-1) |}.

(** A segment of 100 bytes whose writer reports 150 bytes written. *)
Definition greedyChunk : DownloadChunk :=
  {| writer := {| writeAt := fun _ _ => inl (Int 150) |};
     start := Int 0; size := Int 100; current := Int 0 |}.

(* ================================================================== *)
(** ** Predicates of the properties *)

(** [response.headers.get ('content-length') || '0'] *)
Definition headerOrZero (contentLength : option string) : string :=
  match contentLength with
  | Some EmptyString | None => "0"
  | Some s => s
  end.

(** The pass is the execution step run: on its batches, in the world before
    it, with its index, the step settles as recorded and leaves the world
    recorded. *)
Definition ran (step : nat -> list (list ref) -> Async (list number))
    (a : Attempt) : Prop :=
  step (at_index a) (at_batches a) (at_before a) = (at_settled a, at_after a).

(** The world after the passes, which started in [w]. *)
Definition finalWorld (w : World) (passes : list Attempt) : World :=
  last (map at_after passes) w.

(** The [error] variable of [download] after a pass of the retry loop. *)
Definition errorAfter (error : option Thrown) (a : Attempt) : option Thrown :=
  match at_settled a with
  | inr e => Some e
  | inl _ => None
  end.

(** The world with more events logged. *)
Definition logged (w : World) (evs : list Event) : World :=
  {| heap := heap w; log := log w ++ evs |}.

(** The event of the call that [write] made to the writer, if any. *)
Definition callEvents (call : option WriteCall) : list Event :=
  match call with
  | Some wc => [EvWriteAt wc]
  | None => []
  end.

(** [0 <= current <= size] *)
Definition invariant (c : DownloadChunk) : bool :=
  le (Int 0) (current c) && le (current c) (size c).

(** The byte at offset [b] lies in the range of the chunk. *)
Definition covers (c : DownloadChunk) (b : Z) : Prop :=
  exists s l, start c = Int s /\ size c = Int l /\ s <= b < s + l.

Definition isRequest (ev : Event) : bool :=
  match ev with
  | EvGet _ _ | EvWriteAt _ => true
  | _ => false
  end.

Definition isPartDeterminer (ev : Event) : bool :=
  match ev with
  | EvPartDeterminer _ => true
  | _ => false
  end.

(** The call has invoked [partDeterminer]. *)
Definition invokesPartDeterminer (r : Run) : bool :=
  existsb isPartDeterminer (log (world r)).

(** The call has sent a ranged request or written to the file. *)
Definition makesRequest (r : Run) : bool :=
  existsb isRequest (log (world r)).

(** An execution step that does not invoke [partDeterminer]. *)
Definition quiet (awaitAll : nat -> list (list ref) -> Async (list number))
  : Prop :=
  forall i bs w,
    existsb isPartDeterminer (log (snd (awaitAll i bs w)))
    = existsb isPartDeterminer (log w).

Definition failed (a : Attempt) : Prop := exists e, at_settled a = inr e.


(** The passes are chained: each runs on the batches [bs] and starts in the
    world the one before left, the first one in [w]. *)
Fixpoint chained (bs : list (list ref)) (w : World) (i : nat)
    (passes : list Attempt) : Prop :=
  match passes with
  | [] => True
  | a :: rest =>
      at_index a = i /\ at_batches a = bs /\ at_before a = w
      /\ chained bs (at_after a) (S i) rest
  end.

(** The configuration with another [chunkSizeDeterminer]. *)
Definition withChunkSizeDeterminer (cfg : DownloaderConfig)
    (f : number -> Z) : DownloaderConfig :=
  {| maxRetries := maxRetries cfg;
     maxConcurrentDownloads := maxConcurrentDownloads cfg;
     partDeterminer := partDeterminer cfg;
     chunkSizeDeterminer := f;
     chunkSizeB := chunkSizeB cfg |}.

(** [f 0 + ... + f (n - 1)] *)
Fixpoint sumTo (f : nat -> Z) (n : nat) : Z :=
  match n with
  | O => 0
  | S n' => sumTo f n' + f n'
  end.

(** The segment behind [r] is untouched and the server and the file system
    are ready for it in attempt [i]: the ranged request is answered with
    206 and a body, of which the file system writes [n] bytes at the start
    offset of the segment. *)
Definition ready (env : Env) (path : string) (i : nat) (w : World)
    (r : ref) (n : Z) : Prop :=
  exists c p,
    nth_error (heap w) r = Some c
    /\ current c = Int 0
    /\ lt (Int 0) (size c) = true
    /\ writer c = FileWriter (fs env) path
    /\ get env i (getRange c) = GetResponse 206 (inl p)
    /\ fs env path p (start c) = inl (Int n).

(** The sum of [count] over the references of a list. *)
Definition total (count : ref -> Z) (rs : list ref) : Z :=
  fold_right (fun r acc => count r + acc) 0 rs.

(** A server for a resource of [S] bytes that honours every range request
    of segment size [C], returning the bytes the resource has in the range;
    the file system writes every buffer in full. *)
Definition rangeServer (S C : Z) (bodyOf : string -> Buffer) : Env -> Prop :=
  fun env =>
    (exists h, head env = HeadResponse (Some h) /\ h <> "" /\ parseInt h = Int S)
    /\ (forall k : Z, 0 <= k -> k * C < S ->
        let range := "bytes=" ++ Z_to_string (k * C) ++ "-"
                     ++ Z_to_string (k * C + C + -1) in
        get env 0%nat range = GetResponse 206 (inl (bodyOf range))
        /\ Z.of_nat (List.length (bodyOf range)) = Z.min C (S - k * C))
    /\ (forall path p off, fs env path p off
                           = inl (Int (Z.of_nat (List.length p)))).

(** Every character of the string is a decimal digit. *)
Fixpoint digitsOnly (s : string) : bool :=
  match s with
  | EmptyString => true
  | String c s' =>
      let n := nat_of_ascii c in
      ((48 <=? n)%nat && (n <=? 57)%nat)%bool && digitsOnly s'
  end.

(* ================================================================== *)
(** * Properties *)

(** ** Numbers *)

Lemma cdiv_spec (a b : Z) :
  0 < b -> b * (cdiv a b - 1) < a <= b * cdiv a b.
Proof.
  intros Hb. unfold cdiv.
  pose proof (Z.div_mod (- a) b ltac:(lia)) as E.
  pose proof (Z.mod_pos_bound (- a) b Hb) as B.
  nia.
Qed.

Lemma cdiv_unique (a b q : Z) :
  0 < b -> b * (q - 1) < a <= b * q -> cdiv a b = q.
Proof.
  intros Hb Hq. pose proof (cdiv_spec a Hb) as S. nia.
Qed.

Lemma cdiv_pos (a b : Z) : 0 < b -> 0 < a -> 0 < cdiv a b.
Proof.
  intros Hb Ha. pose proof (cdiv_spec a Hb). nia.
Qed.

Lemma cdiv_zero (b : Z) : 0 < b -> cdiv 0 b = 0.
Proof.
  intros Hb. apply cdiv_unique; lia.
Qed.

Lemma le_Int (x y : Z) : le (Int x) (Int y) = (x <=? y).
Proof. reflexivity. Qed.

Lemma gt_not_le (a b : number) : gt a b = true -> le a b = false.
Proof.
  destruct a, b; simpl; try discriminate; try reflexivity.
  unfold gt, lt. intros H. apply Z.ltb_lt in H. apply Z.leb_gt. exact H.
Qed.

Example toString_neg : toString (Int (-15)) = "-15".
Proof. reflexivity. Qed.

Example parseInt_500 : parseInt " 500abc" = Int 500.
Proof. reflexivity. Qed.

Example parseInt_hex : parseInt "-0x1A" = Int (-26).
Proof. reflexivity. Qed.

Example parseInt_nan : parseInt "abc" = NaN.
Proof. reflexivity. Qed.

Example ceil_div_examples :
  ceil_div (Int 7) (Int 2) = Int 4 /\ ceil_div (Int (-7)) (Int 2) = Int (-3)
  /\ ceil_div (Int 7) (Int 0) = PInf /\ ceil_div (Int 0) (Int 0) = NaN
  /\ ceil_div (Int 7) PInf = Int 0.
Proof. repeat split. Qed.

(** [parseInt] yields an integer or [NaN]. *)
Lemma parseInt_finite (s : string) :
  parseInt s = NaN \/ exists z, parseInt s = Int z.
Proof.
  unfold parseInt.
  destruct (match skipWhiteSpace s with
            | String "-" r => (-1, r)
            | String "+" r => (1, r)
            | _ => (1, skipWhiteSpace s)
            end) as [sign s2].
  destruct (match stripHexPrefix s2 with
            | Some r => (16, r)
            | None => (10, s2)
            end) as [radix s3].
  destruct (parseDigits radix None s3); eauto.
Qed.

(** ** Planning: the number of chunks (C3) *)


(** C3. [determineNumberOfChunks (S)]: with a fixed segment size [C > 0] it
    returns [Math.ceil (S / C)] and leaves the configuration as it is; with
    [C <= 0] it returns [partDeterminer (S)] and sets [chunkSizeB] to
    [Math.ceil (S / partDeterminer (S))].  On integers with a positive
    divisor, [Math.ceil (a / b)] is the least [q] with [a <= b * q]. *)
Theorem determineNumberOfChunks_spec
    (cfg : DownloaderConfig) (S : number) (w : World) :
  (gt (chunkSizeB cfg) (Int 0) = true ->
     fst (determineNumberOfChunks cfg S w)
     = inl (ceil_div S (chunkSizeB cfg), cfg))
  /\ (le (chunkSizeB cfg) (Int 0) = true ->
     fst (determineNumberOfChunks cfg S w)
     = inl (Int (partDeterminer cfg S),
            set_chunkSizeB cfg (ceil_div S (Int (partDeterminer cfg S)))))
  /\ (forall a b : Z, 0 < b ->
        exists q, ceil_div (Int a) (Int b) = Int q
                  /\ b * (q - 1) < a <= b * q).
Proof.
  split; [|split].
  - intros H. unfold determineNumberOfChunks.
    rewrite (gt_not_le _ _ H). reflexivity.
  - intros H. unfold determineNumberOfChunks. rewrite H. reflexivity.
  - intros a b Hb. exists (cdiv a b). split.
    + simpl. destruct (Z.eqb_spec b 0); [lia | reflexivity].
    + apply cdiv_spec; assumption.
Qed.

Lemma determineNumberOfChunks_spec_witness :
  fst (determineNumberOfChunks fixed100 (Int 450) emptyWorld)
  = inl (Int 5, fixed100)
  /\ fst (determineNumberOfChunks defaultDownloaderConfig (Int (5 * MB)) emptyWorld)
     = inl (Int 4, set_chunkSizeB defaultDownloaderConfig (Int 1310720)).
Proof.
  destruct (determineNumberOfChunks_spec fixed100 (Int 450) emptyWorld)
    as [H1 _].
  destruct (determineNumberOfChunks_spec defaultDownloaderConfig
              (Int (5 * MB)) emptyWorld) as [_ [H2 _]].
  split.
  - rewrite (H1 eq_refl). reflexivity.
  - rewrite (H2 eq_refl). reflexivity.
Defined.

(** ** Planning: the batches (C4) *)

Section Batches.

Context {A : Type}.
Implicit Types (l chunks : list A) (i m : Z).

Lemma slice_forward l i m :
  0 <= i -> 0 <= m ->
  slice i (i + m) l = firstn (Z.to_nat m) (skipn (Z.to_nat i) l).
Proof.
  intros Hi Hm. unfold slice.
  set (len := Z.of_nat (List.length l)).
  destruct (Z.ltb_spec i 0); [lia|].
  destruct (Z.ltb_spec (i + m) 0); [lia|].
  destruct (Z_lt_le_dec i len) as [Hlt | Hge].
  - rewrite (Z.min_l i len) by lia.
    destruct (Z_le_gt_dec (i + m) len) as [Hin | Hout].
    + rewrite (Z.min_l (i + m) len) by lia.
      f_equal. lia.
    + rewrite (Z.min_r (i + m) len) by lia.
      rewrite !firstn_all2; try reflexivity;
        rewrite length_skipn; subst len; lia.
  - rewrite (Z.min_r i len) by lia.
    rewrite !(skipn_all2 l) by (subst len; lia).
    now rewrite !firstn_nil.
Qed.

Lemma batchLoop_spec l m (Hm : 0 < m) :
  forall (fuel : nat) i,
    0 <= i -> Z.of_nat (List.length l) - i <= Z.of_nat fuel ->
    exists bs,
      batchLoop fuel i m l = Some bs
      /\ List.concat bs = skipn (Z.to_nat i) l
      /\ m * (Z.of_nat (List.length bs) - 1)
           < Z.max (Z.of_nat (List.length l) - i) 0
           <= m * Z.of_nat (List.length bs)
      /\ forall j, (j < List.length bs)%nat ->
           nth j bs [] = firstn (Z.to_nat m)
                           (skipn (Z.to_nat (i + Z.of_nat j * m)) l).
Proof.
  induction fuel as [|fuel IH]; intros i Hi Hfuel.
  - exists []. simpl.
    destruct (Z.ltb_spec i (Z.of_nat (List.length l))); [lia|].
    repeat split; try lia.
    rewrite skipn_all2 by lia. reflexivity.
  - simpl. destruct (Z.ltb_spec i (Z.of_nat (List.length l))) as [Hlt | Hge].
    + destruct (IH (i + m)) as (bs & E & Hcat & Hcount & Hnth); try lia.
      rewrite E. exists (slice i (i + m) l :: bs).
      split; [reflexivity|]. split; [|split].
      * simpl. rewrite Hcat, slice_forward by lia.
        replace (Z.to_nat (i + m)) with (Z.to_nat m + Z.to_nat i)%nat by lia.
        rewrite <- skipn_skipn. apply firstn_skipn.
      * simpl List.length. rewrite Nat2Z.inj_succ.
        rewrite Z.max_l by lia.
        set (L := Z.of_nat (List.length bs)) in *.
        assert (0 <= L) by (subst L; lia).
        replace (m * (Z.succ L - 1)) with (m * L) by ring.
        replace (m * Z.succ L) with (m * L + m) by ring.
        replace (m * (L - 1)) with (m * L - m) in Hcount by ring.
        destruct (Z.max_spec (Z.of_nat (List.length l) - (i + m)) 0)
          as [[? E'] | [? E']]; rewrite E' in Hcount; [|lia].
        assert (L = 0) as -> by nia. lia.
      * intros [|j] Hj.
        -- simpl. rewrite slice_forward by lia. do 2 f_equal. lia.
        -- simpl in Hj. simpl nth. rewrite Hnth by lia. do 3 f_equal. lia.
    + exists []. repeat split; try (simpl; lia).
      simpl. rewrite skipn_all2 by lia. reflexivity.
Qed.

Lemma length_firstn_skipn l (a b : nat) :
  List.length (firstn a (skipn b l)) = Nat.min a (List.length l - b).
Proof. now rewrite length_firstn, length_skipn. Qed.

End Batches.

(** C4. [batchChunks] on [n] segments with bound [k]: for [k <= 0] or
    [n <= k], the [n] singleton batches in order; for [0 < k < n], at most
    [k] contiguous batches whose concatenation is the input, each of
    [ceil (n / k)] segments but the last, which has between one and
    [ceil (n / k)]. *)
Theorem batchChunks_spec (A : Type) (cfg : DownloaderConfig) (chunks : list A) :
  let n := Z.of_nat (List.length chunks) in
  let k := maxConcurrentDownloads cfg in
  (k <= 0 \/ n <= k ->
     batchChunks cfg chunks = Some (map (fun chunk => [chunk]) chunks)
     /\ List.length (map (fun chunk => [chunk]) chunks) = List.length chunks)
  /\ (0 < k -> k < n ->
      exists batches,
        batchChunks cfg chunks = Some batches
        /\ List.concat batches = chunks
        /\ Z.of_nat (List.length batches) <= k
        /\ (forall j, (S j < List.length batches)%nat ->
              Z.of_nat (List.length (nth j batches [])) = cdiv n k)
        /\ 0 < Z.of_nat (List.length (last batches [])) <= cdiv n k
        /\ (forall j, (j < List.length batches)%nat ->
              nth j batches []
              = firstn (Z.to_nat (cdiv n k))
                  (skipn (j * Z.to_nat (cdiv n k)) chunks))).
Proof.
  intros n k. split.
  - intros H. split; [|apply length_map].
    unfold batchChunks. fold k. fold n.
    destruct (Z.leb_spec k 0); [reflexivity|].
    destruct (Z.leb_spec n k); [reflexivity|lia].
  - intros Hk Hn.
    unfold batchChunks. fold k. fold n.
    destruct (Z.leb_spec k 0); [lia|].
    destruct (Z.leb_spec n k); [lia|].
    set (m := cdiv n k).
    assert (Hm : 0 < m) by (apply cdiv_pos; lia).
    pose proof (cdiv_spec n Hk) as Hceil. fold m in Hceil.
    destruct (batchLoop_spec chunks Hm (List.length chunks) (i := 0))
      as (bs & E & Hcat & Hcount & Hnth); try lia.
    fold n in Hcount. rewrite Z.sub_0_r, Z.max_l in Hcount by lia.
    assert (Hlen : forall j, (j < List.length bs)%nat ->
              Z.of_nat (List.length (nth j bs []))
              = Z.min m (n - Z.of_nat j * m)).
    { intros j Hj. rewrite (Hnth j Hj), length_firstn_skipn. subst n. nia. }
    exists bs. split; [exact E|]. split; [exact Hcat|].
    split; [nia|]. split; [|split].
    + intros j Hj. rewrite Hlen by lia. nia.
    + assert (bs <> []) as Hne by (intros ->; simpl in Hcount; lia).
      destruct (exists_last Hne) as (front & b & ->).
      rewrite last_last.
      rewrite length_app in Hcount, Hlen. simpl in Hcount, Hlen.
      specialize (Hlen (List.length front) ltac:(lia)).
      rewrite app_nth2, Nat.sub_diag in Hlen by lia. simpl in Hlen.
      rewrite Hlen. nia.
    + intros j Hj. rewrite (Hnth j Hj). do 2 f_equal. nia.
Qed.

Lemma batchChunks_spec_witness :
  batchChunks oneBatchTwoTries [10; 11; 12]%nat = Some [[10; 11; 12]%nat]
  /\ batchChunks defaultDownloaderConfig [10; 11; 12]%nat
     = Some [[10]; [11]; [12]]%nat.
Proof.
  destruct (batchChunks_spec oneBatchTwoTries [10; 11; 12]%nat) as [_ H2].
  destruct (batchChunks_spec defaultDownloaderConfig [10; 11; 12]%nat)
    as [H1 _].
  split.
  - destruct (H2 ltac:(simpl; lia) ltac:(simpl; lia)) as (bs & E & _).
    rewrite E. f_equal. vm_compute in E. now inversion E.
  - destruct (H1 ltac:(right; simpl; lia)) as [E _]. exact E.
Defined.

(** ** Planning: the segments (C5) *)

Lemma createLoop_length (cs : number) (wr : WriteAt) (n : nat) (i0 : Z) :
  List.length (createLoop cs wr n i0) = n.
Proof.
  revert i0. induction n as [|n IH]; intros i0; simpl; [|rewrite IH]; reflexivity.
Qed.

Lemma createLoop_nth (cs : number) (wr : WriteAt) (n : nat) :
  forall (i0 : Z) (j : nat), (j < n)%nat ->
    nth_error (createLoop cs wr n i0) j
    = Some {| writer := wr; start := mul (Int (i0 + Z.of_nat j)) cs;
              size := cs; current := Int 0 |}.
Proof.
  induction n as [|n IH]; intros i0 j Hj; [lia|].
  destruct j as [|j]; cbn [createLoop nth_error].
  - now rewrite Z.add_0_r.
  - rewrite IH by lia. do 4 f_equal. lia.
Qed.

Lemma createLoop_In (cs : number) (wr : WriteAt) (n : nat) (i0 : Z)
    (c : DownloadChunk) :
  In c (createLoop cs wr n i0) -> size c = cs /\ current c = Int 0.
Proof.
  revert i0. induction n as [|n IH]; intros i0; simpl; [tauto|].
  intros [<- | H]; [split; reflexivity | eauto].
Qed.

(** C5. With a segment size [C > 0], [createChunks (n)] makes [n] segments;
    segment [i] starts at [i * C], has length [C], nothing written, and the
    range header [bytes=<i*C>-<(i+1)*C-1>]; the ranges of the segments tile
    [[0, n*C)]: every byte of it lies in one segment and only one, and no
    segment reaches outside. *)
Theorem createChunks_tiling
    (cfg : DownloaderConfig) (C : Z) (n : nat) (wr : WriteAt) (w : World) :
  chunkSizeB cfg = Int C -> 0 < C ->
  exists w',
    createChunks cfg (Int (Z.of_nat n)) wr w
    = Some (seq (List.length (heap w)) n, w')
    /\ List.length (seq (List.length (heap w)) n) = n
    /\ (forall i, (i < n)%nat ->
        exists c,
          nth_error (heap w') (nth i (seq (List.length (heap w)) n) O) = Some c
          /\ writer c = wr
          /\ start c = Int (Z.of_nat i * C)
          /\ size c = Int C
          /\ current c = Int 0
          /\ getRange c
             = "bytes=" ++ Z_to_string (Z.of_nat i * C) ++ "-"
               ++ Z_to_string ((Z.of_nat i + 1) * C - 1)
          /\ forall b, covers c b <-> Z.of_nat i * C <= b < (Z.of_nat i + 1) * C)
    /\ (forall b, 0 <= b < Z.of_nat n * C <->
        exists i, (i < n)%nat
                  /\ Z.of_nat i * C <= b < (Z.of_nat i + 1) * C)
    /\ (forall i j b,
          Z.of_nat i * C <= b < (Z.of_nat i + 1) * C ->
          Z.of_nat j * C <= b < (Z.of_nat j + 1) * C -> i = j).
Proof.
  intros HC Hpos. unfold createChunks. simpl iterations.
  rewrite Nat2Z.id, HC.
  eexists. split; [reflexivity|]. split; [apply length_seq|].
  split; [|split].
  - intros i Hi. simpl heap.
    rewrite seq_nth by assumption.
    rewrite nth_error_app2 by lia.
    replace (List.length (heap w) + i - List.length (heap w))%nat with i by lia.
    rewrite createLoop_nth by assumption.
    eexists. split; [reflexivity|]. simpl.
    do 4 (split; [reflexivity|]). split.
    + unfold getRange. simpl.
      replace (Z.of_nat i * C + C + -1) with ((Z.of_nat i + 1) * C - 1) by lia.
      reflexivity.
    + intros b. unfold covers. simpl. split.
      * intros (s & l & Es & El & Hb).
        inversion Es; inversion El; subst. lia.
      * intros Hb. exists (Z.of_nat i * C), C.
        split; [reflexivity|]. split; [reflexivity|]. lia.
  - intros b. split.
    + intros Hb. exists (Z.to_nat (b / C)).
      pose proof (Z.div_mod b C ltac:(lia)) as E.
      pose proof (Z.mod_pos_bound b C Hpos) as B.
      assert (0 <= b / C) by (apply Z.div_pos; lia).
      rewrite Z2Nat.id by assumption.
      split; [|nia].
      assert (b / C < Z.of_nat n) by nia. lia.
    + intros (i & Hi & Hb). nia.
  - intros i j b Hi Hj.
    assert (Z.of_nat i = Z.of_nat j) by nia. lia.
Qed.

Lemma createChunks_tiling_witness :
  exists w',
    createChunks fixed100 (Int 5) (FileWriter okFs "out") emptyWorld
    = Some ([0; 1; 2; 3; 4]%nat, w')
    /\ exists c, nth_error (heap w') 4 = Some c
                 /\ getRange c = "bytes=400-499".
Proof.
  destruct (createChunks_tiling fixed100 (C := 100) 5 (FileWriter okFs "out")
              emptyWorld eq_refl ltac:(lia))
    as (w' & E & _ & H & _).
  exists w'. split; [exact E|].
  destruct (H 4%nat ltac:(lia)) as (c & Ec & _ & _ & _ & _ & Er & _).
  exists c. split; [exact Ec | exact Er].
Defined.

(** ** Segments: the write invariant (C7) *)

Lemma write_full (c : DownloadChunk) (p : Buffer) :
  ge (current c) (size c) = true -> write c p = (inl (Int 0), c, None).
Proof.
  intros H. unfold write. now rewrite H.
Qed.

Lemma le_refl_finite (a : number) : a <> NaN -> le a a = true.
Proof.
  destruct a; simpl; try reflexivity; [intros _; apply Z.leb_refl | congruence].
Qed.

Lemma le_0_add (a n : number) :
  le (Int 0) a = true -> le (Int 0) n = true -> le (Int 0) (add a n) = true.
Proof.
  destruct a, n; simpl; try discriminate; try reflexivity.
  intros Ha Hn. apply Z.leb_le in Ha, Hn. apply Z.leb_le. lia.
Qed.

(** C7, as the code has it.  A segment made by planning with a segment size
    [>= 0] satisfies [0 <= current <= size]; [write] keeps the invariant
    when the writer rejects or reports a count [n] with
    [0 <= n] and [current + n <= size]; and when [current >= size], in
    particular when [current = size] under the invariant, [write] returns 0,
    leaves the segment as it is and does not call the writer. *)
Theorem write_invariant (c : DownloadChunk) (p : Buffer) :
  (forall cs wr n i0,
      In c (createLoop cs wr n i0) -> le (Int 0) cs = true ->
      invariant c = true)
  /\ (invariant c = true ->
      (forall n, writeAt (writer c) p (add (start c) (current c)) = inl n ->
                 le (Int 0) n = true /\ le (add (current c) n) (size c) = true) ->
      invariant (snd (fst (write c p))) = true)
  /\ (ge (current c) (size c) = true ->
      write c p = (inl (Int 0), c, None))
  /\ (invariant c = true -> current c = size c ->
      write c p = (inl (Int 0), c, None)).
Proof.
  repeat split.
  - intros cs wr n i0 Hin Hcs.
    destruct (createLoop_In _ _ _ _ _ Hin) as [Es Ec].
    unfold invariant. rewrite Ec, Es, Hcs. reflexivity.
  - intros Hinv Hw. unfold write.
    destruct (ge (current c) (size c)); [exact Hinv|].
    destruct (writeAt (writer c) p (add (start c) (current c))) as [n|e] eqn:E;
      [|exact Hinv].
    destruct (Hw n eq_refl) as [Hn Hfit].
    unfold invariant in *. cbn [snd fst set_current current size].
    apply andb_true_iff in Hinv. destruct Hinv as [H0 _].
    now rewrite (le_0_add _ _ H0 Hn), Hfit.
  - apply write_full.
  - intros Hinv E. apply write_full. unfold ge. rewrite E.
    apply le_refl_finite. intros HN.
    unfold invariant in Hinv. rewrite E, HN in Hinv. discriminate.
Qed.

Lemma write_invariant_witness :
  let c := {| writer := FileWriter okFs "out"; start := Int 200;
              size := Int 100; current := Int 0 |} in
  invariant (snd (fst (write c body100))) = true
  /\ write (snd (fst (write c body100))) body100
     = (inl (Int 0), snd (fst (write c body100)), None).
Proof.
  intros c.
  destruct (write_invariant c body100) as (_ & H2 & _).
  destruct (write_invariant (snd (fst (write c body100))) body100)
    as (_ & _ & H3 & _).
  split.
  - apply H2; [reflexivity|].
    intros n E. vm_compute in E. inversion E. split; reflexivity.
  - apply H3. reflexivity.
Defined.

(** C7, as stated, fails: a segment of 100 bytes receives a body of 150
    bytes, the writer writes all of it, and [current] is 150. *)
Lemma write_overflows :
  let c := {| writer := FileWriter okFs "out"; start := Int 0;
              size := Int 100; current := Int 0 |} in
  let p := repeat Byte.x00 150 in
  invariant c = true
  /\ fst (fst (write c p)) = inl (Int 150)
  /\ current (snd (fst (write c p))) = Int 150
  /\ invariant (snd (fst (write c p))) = false.
Proof. repeat split. Qed.

(** ** Fetching one segment (C6) *)

Lemma writeRef_eq (r : ref) (c : DownloadChunk) (p : Buffer) (w : World) :
  nth_error (heap w) r = Some c ->
  writeRef r p w
  = (fst (fst (write c p)),
     {| heap := replace_nth r (snd (fst (write c p))) (heap w);
        log := log w ++ callEvents (snd (write c p)) |}).
Proof.
  intros Hc. unfold writeRef, bind, deref. rewrite Hc.
  destruct (write c p) as [[res c'] call]. simpl.
  destruct call as [wc|]; simpl; unfold assign; simpl;
    destruct res; simpl; rewrite ?app_nil_r; reflexivity.
Qed.

Lemma downloadPart_eq (env : Env) (url : string) (i : nat) (r : ref)
    (c : DownloadChunk) (w : World) :
  nth_error (heap w) r = Some c ->
  downloadPart env url i r w
  = let w1 := logged w [EvGet url (getRange c)] in
    match get env i (getRange c) with
    | GetThrows e => (inr (PartFailed (External e)), w1)
    | GetResponse status body =>
        if status =? 200 then (inr (PartFailed RangeUnsupported), w1)
        else if status =? 206 then
          match body with
          | inr e => (inr (PartFailed (External e)), w1)
          | inl p =>
              (match fst (fst (write c p)) with
               | inl n => inl n
               | inr e => inr (PartFailed e)
               end,
               {| heap := replace_nth r (snd (fst (write c p))) (heap w);
                  log := log w1 ++ callEvents (snd (write c p)) |})
          end
        else (inr (PartFailed (PartStatus status)), w1)
    end.
Proof.
  intros Hc. unfold downloadPart, tryCatch, bind, deref. rewrite Hc.
  cbn [emit]. fold (logged w [EvGet url (getRange c)]).
  set (w1 := logged w [EvGet url (getRange c)]).
  destruct (get env i (getRange c)) as [status body | e]; [|reflexivity].
  destruct (status =? 200); [reflexivity|].
  destruct (status =? 206); [|reflexivity].
  destruct body as [p | e]; [|reflexivity].
  rewrite (writeRef_eq r p w1 Hc).
  cbn [fst snd]. destruct (fst (fst (write c p))); reflexivity.
Qed.

Lemma add_0_r (a : number) : add a (Int 0) = a.
Proof. destruct a; simpl; try reflexivity. now rewrite Z.add_0_r. Qed.

Lemma write_FileWriter_rejects (c : DownloadChunk) (p : Buffer)
    (fsys : FileSystem) (path : string) (e : Thrown) :
  writer c = FileWriter fsys path ->
  fst (fst (write c p)) = inr e ->
  exists off n x, e = WriteFailed off n (External x).
Proof.
  intros Hw. unfold write. destruct (ge (current c) (size c)); [discriminate|].
  rewrite Hw. simpl.
  destruct (fsys path p (add (start c) (current c))); simpl; [discriminate|].
  intros E. inversion E. eauto.
Qed.

(** C6, as the code has it.  [downloadPart] on a segment, when the server
    answers the ranged request with status [status]: it fails with the error
    "Server does not support range requests" exactly when [status] is 200;
    it can succeed only when [status] is 206, and on 206 it reads the body
    and passes it to the segment's [write], whose settlement is its own: the
    count of the writer for a write at the start offset when nothing was
    written before, 0 with no write when the segment is full, and a failure
    when the body read or the writer fails; any other status fails with the
    error that carries the status code. *)
Theorem downloadPart_status
    (env : Env) (url : string) (i : nat) (r : ref) (c : DownloadChunk)
    (w : World) (status : Z) (body : Buffer + string)
    (fsys : FileSystem) (path : string) :
  nth_error (heap w) r = Some c ->
  writer c = FileWriter fsys path ->
  get env i (getRange c) = GetResponse status body ->
  let res := fst (downloadPart env url i r w) in
  let w' := snd (downloadPart env url i r w) in
  (res = inr (PartFailed RangeUnsupported) <-> status = 200)
  /\ ((exists n, res = inl n) -> status = 206)
  /\ (status = 206 ->
      match body with
      | inr e => res = inr (PartFailed (External e))
      | inl p =>
          res = match fst (fst (write c p)) with
                | inl n => inl n
                | inr e => inr (PartFailed e)
                end
          /\ nth_error (heap w') r = Some (snd (fst (write c p)))
          /\ log w' = (log w ++ EvGet url (getRange c)
                               :: callEvents (snd (write c p)))%list
          /\ (current c = Int 0 -> lt (Int 0) (size c) = true ->
              forall n, fsys path p (start c) = inl n ->
                res = inl n
                /\ snd (write c p)
                   = Some {| wc_buffer := p; wc_offset := start c |})
          /\ (ge (current c) (size c) = true ->
              res = inl (Int 0) /\ snd (write c p) = None)
      end)
  /\ (status <> 200 -> status <> 206 ->
      res = inr (PartFailed (PartStatus status))).
Proof.
  intros Hc Hw Hget res w'. subst res w'.
  rewrite (downloadPart_eq env url i r w Hc), Hget. cbn zeta.
  destruct (Z.eqb_spec status 200) as [E200 | N200].
  { subst status. cbn [fst snd]. repeat split; try reflexivity; try discriminate.
    - intros [n Hn]. discriminate.
    - intros Hn. contradiction. }
  destruct (Z.eqb_spec status 206) as [E206 | N206].
  - subst status. split; [|split; [|split]].
    + split; [|lia]. destruct body as [p | e]; cbn [fst]; [|discriminate].
      destruct (fst (fst (write c p))) as [n | e] eqn:E; [discriminate|].
      destruct (write_FileWriter_rejects c p Hw E) as (off & n & x & ->).
      discriminate.
    + reflexivity.
    + intros _. destruct body as [p | e]; cbn [fst snd]; [|reflexivity].
      split; [reflexivity|]. split; [|split; [|split]].
      * cbn [heap].
        clear - Hc. revert r Hc. generalize (heap w) as h.
        induction h as [|x h IH]; intros [|r] Hc; simpl in *;
          try discriminate; [reflexivity | now apply IH].
      * cbn [log logged]. now rewrite <- app_assoc.
      * intros Hcur Hsize n Hfs.
        unfold write. rewrite Hcur, Hw, add_0_r.
        unfold ge. cbn [writeAt FileWriter].
        replace (le (size c) (Int 0)) with false.
        2:{ symmetry. apply gt_not_le. exact Hsize. }
        rewrite Hfs. split; reflexivity.
      * intros Hfull. rewrite (write_full c p Hfull). split; reflexivity.
    + intros _ H. contradiction.
  - cbn [fst snd]. repeat split; try discriminate; try lia.
    intros [n Hn]. discriminate.
Qed.

Lemma downloadPart_status_witness :
  let c := {| writer := FileWriter okFs "out"; start := Int 100;
              size := Int 100; current := Int 0 |} in
  let w := {| heap := [c; c]; log := [] |} in
  fst (downloadPart (serverOk (Some "200")) "u" 0%nat 1%nat w) = inl (Int 100)
  /\ fst (downloadPart (serverNoRange (Some "200")) "u" 0%nat 1%nat w)
     = inr (PartFailed RangeUnsupported).
Proof.
  intros c w. split.
  - destruct (@downloadPart_status (serverOk (Some "200")) "u" 0%nat 1%nat c w
                206 (inl body100) okFs "out" eq_refl eq_refl eq_refl)
      as (_ & _ & H & _).
    destruct (H eq_refl) as (_ & _ & _ & H4 & _).
    destruct (H4 eq_refl eq_refl (Int 100) eq_refl) as [E _]. exact E.
  - destruct (@downloadPart_status (serverNoRange (Some "200")) "u" 0%nat
                1%nat c w 200 (inl body100) okFs "out"
                eq_refl eq_refl eq_refl)
      as (H & _).
    apply H. reflexivity.
Defined.

(** C6, as stated, fails: status 206 does not make the fetch succeed.  The
    server answers 206 with the body and the destination cannot be opened:
    the segment fails with the error of the writer. *)
Lemma partial_content_write_fails :
  let c := {| writer := FileWriter deniedFs "out"; start := Int 100;
              size := Int 100; current := Int 0 |} in
  let w := {| heap := [c; c]; log := [] |} in
  get (serverOk (Some "200")) 0%nat (getRange c)
  = GetResponse 206 (inl body100)
  /\ fst (downloadPart (serverOk (Some "200")) "u" 0%nat 1%nat w)
     = inr (PartFailed
              (WriteFailed (Int 100) 100
                 (External "Error: EACCES: permission denied, open 'out'"))).
Proof. split; reflexivity. Qed.

(** ** Size discovery and planning inside [download] *)

Lemma getFileSize_world (env : Env) (url : string) (w : World) :
  snd (getFileSize env url w) = logged w [EvHead url].
Proof.
  unfold getFileSize, getContentLength, tryCatch, bind. cbn [emit].
  destruct (head env) as [cl | status | e]; try reflexivity.
  destruct (status =? 404); [reflexivity|].
  destruct (status =? 403); [reflexivity|].
  destruct (status =? 401); [reflexivity|].
  destruct (status =? 416); reflexivity.
Qed.

Lemma getFileSize_response (env : Env) (url : string) (w : World)
    (cl : option string) :
  head env = HeadResponse cl ->
  getFileSize env url w = (inl (parseInt (headerOrZero cl)), logged w [EvHead url]).
Proof.
  intros H. unfold getFileSize, getContentLength, tryCatch, bind. cbn [emit].
  rewrite H. reflexivity.
Qed.

Lemma getFileSize_fulfilled (env : Env) (url : string) (w : World) (S : number) :
  fst (getFileSize env url w) = inl S ->
  exists cl, head env = HeadResponse cl /\ S = parseInt (headerOrZero cl).
Proof.
  unfold getFileSize, getContentLength, tryCatch, bind. cbn [emit].
  destruct (head env) as [cl | status | e].
  - cbn. intros E. inversion E. eauto.
  - destruct (status =? 404); [discriminate|].
    destruct (status =? 403); [discriminate|].
    destruct (status =? 401); [discriminate|].
    destruct (status =? 416); discriminate.
  - discriminate.
Qed.

Lemma determineNumberOfChunks_eq (cfg : DownloaderConfig) (S : number)
    (w : World) :
  determineNumberOfChunks cfg S w
  = if le (chunkSizeB cfg) (Int 0)
    then (inl (Int (partDeterminer cfg S),
               set_chunkSizeB cfg (ceil_div S (Int (partDeterminer cfg S)))),
          logged w [EvPartDeterminer S])
    else (inl (ceil_div S (chunkSizeB cfg), cfg), w).
Proof.
  unfold determineNumberOfChunks.
  destruct (le (chunkSizeB cfg) (Int 0)); reflexivity.
Qed.

(** A fixed-size count of a size that [parseInt] returned is not infinite:
    the loop of [createChunks] ends. *)
Lemma ceil_div_iterations (S C : number) :
  (S = NaN \/ exists z, S = Int z) -> le C (Int 0) = false ->
  exists n : nat, iterations (ceil_div S C) = Some n.
Proof.
  intros HS Hle.
  destruct HS as [-> | [z ->]]; [cbn; eauto|].
  destruct C as [c | | |]; cbn in *; eauto.
  destruct (Z.eqb_spec c 0); [|cbn; eauto].
  subst c. discriminate.
Qed.

Lemma batchChunks_total (A : Type) (cfg : DownloaderConfig) (chunks : list A) :
  exists batches, batchChunks cfg chunks = Some batches.
Proof.
  unfold batchChunks.
  destruct (Z.leb_spec (maxConcurrentDownloads cfg) 0); [eauto|].
  destruct (Z.leb_spec (Z.of_nat (List.length chunks))
              (maxConcurrentDownloads cfg)); [eauto|].
  destruct (@batchLoop_spec A chunks
              (cdiv (Z.of_nat (List.length chunks)) (maxConcurrentDownloads cfg))
              ltac:(apply cdiv_pos; lia) (List.length chunks) 0)
    as (bs & E & _); try lia.
  eauto.
Qed.

(** ** The retry loop *)

Section RetryLoopFacts.

Variable awaitAll : nat -> list (list ref) -> Async (list number).

Lemma retryLoop_chained (bs : list (list ref)) :
  forall remaining i wb err w,
    chained bs w i (snd (retryLoop awaitAll remaining i bs wb err w)).
Proof.
  induction remaining as [|n IH]; intros i wb err w; cbn [retryLoop].
  - exact I.
  - destruct (awaitAll i bs w) as [[results | e] w'] eqn:E.
    + cbn. auto.
    + specialize (IH (S i) wb (Some e) w').
      destruct (retryLoop awaitAll n (S i) bs wb (Some e) w')
        as [[[wb' err'] w''] rest].
      cbn in *. auto.
Qed.

(** The passes of the loop are failures followed by at most one success,
    which ends the loop; without a success the loop runs all its passes and
    keeps the error of the last one. *)
Lemma retryLoop_shape (bs : list (list ref)) :
  forall remaining i wb err w,
    let '(wb', err', _, passes) :=
      retryLoop awaitAll remaining i bs wb err w in
    (Forall failed passes
     /\ List.length passes = remaining
     /\ wb' = wb)
    \/ (exists pre a results,
          passes = (pre ++ [a])%list
          /\ Forall failed pre
          /\ (List.length pre < remaining)%nat
          /\ at_settled a = inl results
          /\ wb' = fold_left add results (Int 0)
          /\ err' = None).
Proof.
  induction remaining as [|n IH]; intros i wb err w; cbn [retryLoop].
  - left. repeat split. constructor.
  - destruct (awaitAll i bs w) as [[results | e] w'] eqn:E.
    + right. exists [], {| at_index := i; at_batches := bs; at_before := w;
                           at_settled := inl results; at_after := w' |}, results.
      split; [reflexivity|]. split; [constructor|].
      split; [cbn; lia|]. repeat split.
    + specialize (IH (S i) wb (Some e) w').
      destruct (retryLoop awaitAll n (S i) bs wb (Some e) w')
        as [[[wb' err'] w''] rest].
      set (this := {| at_index := i; at_batches := bs; at_before := w;
                      at_settled := inr e; at_after := w' |}).
      assert (Hthis : failed this) by (exists e; reflexivity).
      destruct IH as [(Hall & Hlen & Hwb)
                     | (pre & a & results & -> & Hpre & Hlen & Ha & Hwb & Herr)].
      * left. split; [constructor; assumption|].
        split; [cbn; lia | assumption].
      * right. exists (this :: pre), a, results.
        split; [reflexivity|]. split; [constructor; assumption|].
        split; [cbn; lia|]. repeat split; assumption.
Qed.

(** The [error] variable after the loop: each pass overwrites it. *)
Lemma retryLoop_error (bs : list (list ref)) :
  forall remaining i wb err w,
    snd (fst (fst (retryLoop awaitAll remaining i bs wb err w)))
    = fold_left errorAfter
        (snd (retryLoop awaitAll remaining i bs wb err w)) err.
Proof.
  induction remaining as [|n IH]; intros i wb err w; cbn [retryLoop].
  - reflexivity.
  - destruct (awaitAll i bs w) as [[results | e] w'] eqn:E.
    + reflexivity.
    + specialize (IH (S i) wb (Some e) w').
      destruct (retryLoop awaitAll n (S i) bs wb (Some e) w')
        as [[[wb' err'] w''] rest].
      cbn in *. exact IH.
Qed.


(** Every recorded pass is the execution step run on the batches of the
    loop, in the world the pass before left. *)
Lemma retryLoop_ran (bs : list (list ref)) :
  forall remaining i wb err w,
    Forall (ran awaitAll) (snd (retryLoop awaitAll remaining i bs wb err w)).
Proof.
  induction remaining as [|n IH]; intros i wb err w; cbn [retryLoop].
  - constructor.
  - destruct (awaitAll i bs w) as [[results | e] w'] eqn:E.
    + cbn. constructor; [exact E | constructor].
    + specialize (IH (S i) wb (Some e) w').
      destruct (retryLoop awaitAll n (S i) bs wb (Some e) w')
        as [[[wb' err'] w''] rest].
      cbn in *. constructor; [exact E | exact IH].
Qed.

Lemma last_cons_default (A : Type) (l : list A) :
  forall x d, last (x :: l) d = last l x.
Proof.
  induction l as [|y l IH]; intros x d; [reflexivity|].
  change (last (x :: y :: l) d) with (last (y :: l) d).
  now rewrite !IH.
Qed.

(** The world the loop leaves is the one its last pass left. *)
Lemma retryLoop_world (bs : list (list ref)) :
  forall remaining i wb err w,
    snd (fst (retryLoop awaitAll remaining i bs wb err w))
    = finalWorld w (snd (retryLoop awaitAll remaining i bs wb err w)).
Proof.
  unfold finalWorld.
  induction remaining as [|n IH]; intros i wb err w; cbn [retryLoop].
  - reflexivity.
  - destruct (awaitAll i bs w) as [[results | e] w'] eqn:E.
    + reflexivity.
    + specialize (IH (S i) wb (Some e) w').
      destruct (retryLoop awaitAll n (S i) bs wb (Some e) w')
        as [[[wb' err'] w''] rest].
      cbn [fst snd map at_after] in *. rewrite last_cons_default. exact IH.
Qed.

End RetryLoopFacts.

Lemma Forall_failed_no_success (pre : list Attempt) (a : Attempt)
    (results : list number) :
  Forall failed (pre ++ [a]) -> at_settled a = inl results -> False.
Proof.
  intros H E. apply Forall_app in H. destruct H as [_ H].
  inversion H as [|? ? [e He] _]; subst. congruence.
Qed.

Lemma chained_nth (bs : list (list ref)) (passes : list Attempt) :
  forall w i j a,
    chained bs w i passes -> nth_error passes j = Some a ->
    at_index a = (i + j)%nat /\ at_batches a = bs.
Proof.
  induction passes as [|x rest IH]; intros w i j a H Hj.
  - destruct j; discriminate.
  - destruct H as (Hi & Hb & _ & Hrest). destruct j as [|j]; cbn in Hj.
    + inversion Hj; subst. split; [lia | reflexivity].
    + destruct (IH _ _ _ _ Hrest Hj) as [E1 E2]. split; [lia | assumption].
Qed.


Lemma split_at_success (pre post pre' : list Attempt) (a a' : Attempt) :
  (pre ++ a :: post = pre' ++ [a'])%list ->
  Forall failed pre' -> ~ failed a ->
  post = [] /\ pre = pre'.
Proof.
  revert pre. induction pre' as [|x p' IH]; intros pre E Hall Ha.
  - destruct pre as [|y pre]; cbn in E.
    + inversion E. split; reflexivity.
    + inversion E as [[Ey E']]. destruct pre; discriminate.
  - destruct pre as [|y pre]; cbn in E; inversion E as [[Ey E']]; subst.
    + inversion Hall; subst. contradiction.
    + inversion Hall; subst.
      destruct (IH pre E' ltac:(assumption) Ha) as [-> ->].
      split; reflexivity.
Qed.

Section DownloadFacts.

Variables (env : Env) (url out : string).
Variable awaitAll : nat -> list (list ref) -> Async (list number).


(** When size discovery succeeds, planning ends and [download] is its retry
    loop on the planned batches. *)
Lemma download_planned (cfg : DownloaderConfig) (w0 : World) (S : number) :
  fst (getFileSize env url w0) = inl S ->
  let byCount := le (chunkSizeB cfg) (Int 0) in
  let cfg' := if byCount
              then set_chunkSizeB cfg (ceil_div S (Int (partDeterminer cfg S)))
              else cfg in
  exists batches w3,
    log w3 = (log w0 ++ EvHead url
                :: (if byCount then [EvPartDeterminer S] else []))%list
    /\ let L := retryLoop awaitAll (Z.to_nat (maxRetries cfg)) 0 batches
                  (Int 0) None w3 in
       download env url out awaitAll cfg w0
       = {| outcome := match snd (fst (fst L)) with
                       | Some e => Rejected (DownloadFailed url out e)
                       | None => Fulfilled (fst (fst (fst L)))
                       end;
            config_after := cfg';
            world := snd (fst L);
            attempts := snd L |}.
Proof.
  intros HS byCount cfg'.
  destruct (getFileSize_fulfilled env url w0 HS) as (cl & Hhead & ES).
  assert (Hfin : S = NaN \/ exists z, S = Int z)
    by (rewrite ES; apply parseInt_finite).
  unfold download.
  rewrite (getFileSize_response env url w0 Hhead), <- ES.
  rewrite determineNumberOfChunks_eq. subst cfg' byCount.
  destruct (le (chunkSizeB cfg) (Int 0)) eqn:Hle.
  - unfold createChunks. cbn [iterations].
    match goal with
    | |- context [batchChunks ?c ?l] =>
        destruct (@batchChunks_total ref c l) as [batches Eb]
    end.
    exists batches. eexists ?[w3].
    split; [|cbv zeta; rewrite Eb; cbn [maxRetries set_chunkSizeB]].
    2:{ match goal with
        | |- context [retryLoop ?a ?b ?c ?d ?e ?f ?g] =>
            instantiate (w3 := g);
            destruct (retryLoop a b c d e f g) as [[[wb err] w4] passes]
        end. reflexivity. }
    cbn [log logged]. now rewrite <- app_assoc.
  - destruct (ceil_div_iterations (chunkSizeB cfg) Hfin Hle) as [n Hn].
    unfold createChunks. rewrite Hn.
    match goal with
    | |- context [batchChunks ?c ?l] =>
        destruct (@batchChunks_total ref c l) as [batches Eb]
    end.
    exists batches. eexists ?[w3]. split; [|cbv zeta; rewrite Eb].
    2:{ match goal with
        | |- context [retryLoop ?a ?b ?c ?d ?e ?f ?g] =>
            instantiate (w3 := g);
            destruct (retryLoop a b c d e f g) as [[[wb err] w4] passes]
        end. reflexivity. }
    reflexivity.
Qed.

End DownloadFacts.

(** A call whose size discovery succeeds plans once, in the world after the
    probe, and is then the retry loop on the planned batches. *)
Lemma download_run (sched : Scheduler) (env : Env) (cfg : DownloaderConfig)
    (url filePath : string) (S : number) :
  fst (getFileSize env url emptyWorld) = inl S ->
  exists n cfg' w2 chunks w3 batches,
    determineNumberOfChunks cfg S (logged emptyWorld [EvHead url])
    = (inl (n, cfg'), w2)
    /\ createChunks cfg' n (FileWriter (fs env) filePath) w2 = Some (chunks, w3)
    /\ batchChunks cfg' chunks = Some batches
    /\ let L := retryLoop (sched env url) (Z.to_nat (maxRetries cfg)) 0 batches
                  (Int 0) None w3 in
       Downloader_download sched env cfg url filePath
       = {| outcome := match snd (fst (fst L)) with
                       | Some e => Rejected (DownloadFailed url filePath
                                               (DownloadFailed url filePath e))
                       | None => Fulfilled (fst (fst (fst L)))
                       end;
            config_after := cfg';
            world := snd (fst L);
            attempts := snd L |}.
Proof.
  intros HS.
  destruct (getFileSize_fulfilled env url emptyWorld HS) as (cl & Hhead & ES).
  assert (Hfin : S = NaN \/ exists z, S = Int z)
    by (rewrite ES; apply parseInt_finite).
  set (w1 := logged emptyWorld [EvHead url]).
  assert (Hd : exists n cfg' w2,
             determineNumberOfChunks cfg S w1 = (inl (n, cfg'), w2)
             /\ maxRetries cfg' = maxRetries cfg
             /\ exists k, iterations n = Some k).
  { rewrite determineNumberOfChunks_eq.
    destruct (le (chunkSizeB cfg) (Int 0)) eqn:Hle.
    - eexists _, _, _. split; [reflexivity|]. split; [reflexivity|].
      cbn. eauto.
    - eexists _, _, _. split; [reflexivity|]. split; [reflexivity|].
      apply ceil_div_iterations; assumption. }
  destruct Hd as (n & cfg' & w2 & Ed & Hmax & k & Hk).
  assert (Hc : exists chunks w3,
             createChunks cfg' n (FileWriter (fs env) filePath) w2
             = Some (chunks, w3))
    by (unfold createChunks; rewrite Hk; eauto).
  destruct Hc as (chunks & w3 & Ec).
  destruct (@batchChunks_total ref cfg' chunks) as [batches Eb].
  exists n, cfg', w2, chunks, w3, batches.
  split; [exact Ed|]. split; [exact Ec|]. split; [exact Eb|].
  cbv zeta. unfold Downloader_download, download.
  rewrite (getFileSize_response env url emptyWorld Hhead), <- ES.
  fold w1. rewrite Ed. cbv beta iota. rewrite Ec. cbv beta iota.
  rewrite Eb, Hmax.
  destruct (retryLoop (sched env url) (Z.to_nat (maxRetries cfg)) 0 batches
              (Int 0) None w3) as [[[wb err] w4] passes].
  cbn [fst snd outcome config_after world attempts].
  destruct err; reflexivity.
Qed.


Example rejection_message :
  message (DownloadFailed "u" "out"
             (DownloadFailed "u" "out"
                (BatchFailed (PartFailed RangeUnsupported))))
  = "Failed to download file from u to out; error: Error: Failed to download file from u to out; error: Error: Failed to download batch; error: Error: Failed to download part; error: Error: Server does not support range requests".
Proof. reflexivity. Qed.

(** A resource of 500 bytes with a fixed segment size of 100: five ranged
    requests, 500 bytes written. *)
Example five_segments :
  let r := Downloader_download inOrder (serverOk (Some "500")) fixed100
             "u" "out" in
  outcome r = Fulfilled (Int 500)
  /\ filter (fun ev => match ev with EvGet _ _ => true | _ => false end)
       (log (world r))
     = [EvGet "u" "bytes=0-99"; EvGet "u" "bytes=100-199";
        EvGet "u" "bytes=200-299"; EvGet "u" "bytes=300-399";
        EvGet "u" "bytes=400-499"].
Proof. split; reflexivity. Qed.

(** ** Retry bound (C2) *)

(** C2. When size discovery succeeds, the call plans once and then runs
    the retry loop: every pass is the execution step, run on the planned
    batches with the index of the pass, the first one in the world planning
    left and each later one in the world the pass before left; the world of
    the call is the one the last pass left.  If every pass fails, exactly
    [maxRetries] passes are made and, when there is one, the call rejects
    with the error of the last pass wrapped by
    [DownloadImplementation.download] and by [Downloader.download]; a pass
    that completes is the last one, every pass before it failed, and the
    call resolves with the sum of its results. *)
Theorem retry_bound
    (sched : Scheduler) (env : Env) (cfg : DownloaderConfig)
    (url filePath : string) (S : number) :
  fst (getFileSize env url emptyWorld) = inl S ->
  let r := Downloader_download sched env cfg url filePath in
  (exists n cfg' w2 chunks w3 batches,
      determineNumberOfChunks cfg S (logged emptyWorld [EvHead url])
      = (inl (n, cfg'), w2)
      /\ createChunks cfg' n (FileWriter (fs env) filePath) w2
         = Some (chunks, w3)
      /\ batchChunks cfg' chunks = Some batches
      /\ chained batches w3 0 (attempts r)
      /\ Forall (ran (sched env url)) (attempts r)
      /\ world r = finalWorld w3 (attempts r))
  /\ (Forall failed (attempts r) ->
     List.length (attempts r) = Z.to_nat (maxRetries cfg)
     /\ (0 < maxRetries cfg ->
         exists front a e,
           attempts r = (front ++ [a])%list
           /\ sched env url (at_index a) (at_batches a) (at_before a)
              = (inr e, at_after a)
           /\ at_settled a = inr e
           /\ outcome r
              = Rejected (DownloadFailed url filePath
                            (DownloadFailed url filePath e))))
  /\ (forall pre a post results,
        attempts r = (pre ++ a :: post)%list ->
        at_settled a = inl results ->
        post = [] /\ Forall failed pre
        /\ sched env url (at_index a) (at_batches a) (at_before a)
           = (inl results, at_after a)
        /\ outcome r = Fulfilled (fold_left add results (Int 0)))
  /\ (forall j a, nth_error (attempts r) j = Some a -> at_index a = j).
Proof.
  intros HS r.
  destruct (download_run sched env cfg url filePath HS)
    as (n & cfg' & w2 & chunks & w3 & batches & Ed & Ec & Eb & Hd).
  cbv zeta in Hd.
  pose proof (retryLoop_shape (sched env url) batches
                (Z.to_nat (maxRetries cfg)) 0 (Int 0) None w3) as Hshape.
  pose proof (retryLoop_error (sched env url) batches
                (Z.to_nat (maxRetries cfg)) 0 (Int 0) None w3) as Herr.
  pose proof (retryLoop_chained (sched env url) batches
                (Z.to_nat (maxRetries cfg)) 0 (Int 0) None w3) as Hch.
  pose proof (retryLoop_ran (sched env url) batches
                (Z.to_nat (maxRetries cfg)) 0 (Int 0) None w3) as Hran.
  pose proof (retryLoop_world (sched env url) batches
                (Z.to_nat (maxRetries cfg)) 0 (Int 0) None w3) as Hworld.
  subst r. rewrite Hd. cbn [attempts outcome world].
  destruct (retryLoop (sched env url) (Z.to_nat (maxRetries cfg)) 0 batches
              (Int 0) None w3) as [[[wb err] w4] passes].
  cbn [fst snd] in *. split; [|split; [|split]].
  - exists n, cfg', w2, chunks, w3, batches.
    repeat (split; [assumption|]). exact Hworld.
  - intros Hall.
    destruct Hshape as [(_ & Hlen & _) | (pre & a & results & -> & _ & _ & Ha & _)];
      [|exfalso; eapply Forall_failed_no_success; eassumption].
    split; [exact Hlen|]. intros Hpos.
    assert (Hne : passes <> []) by (intros ->; cbn in Hlen; lia).
    destruct (exists_last Hne) as (front & a & ->).
    apply Forall_app in Hall. destruct Hall as [_ Ha].
    inversion Ha as [|? ? [e He] _]; subst.
    apply Forall_app in Hran. destruct Hran as [_ Hra].
    inversion Hra as [|? ? Hra' _]; subst. unfold ran in Hra'.
    exists front, a, e. split; [reflexivity|].
    split; [rewrite Hra', He; reflexivity|]. split; [exact He|].
    rewrite fold_left_app. cbn. unfold errorAfter. rewrite He.
    reflexivity.
  - intros pre a post results E Ha.
    assert (Hnf : ~ failed a) by (intros [e He]; congruence).
    destruct Hshape as [(Hall & _) | (pre' & a' & results' & -> & Hpre & _ & Ha' & Hwb & He)].
    + subst passes. apply Forall_app in Hall. destruct Hall as [_ Hall].
      inversion Hall; subst. contradiction.
    + symmetry in E.
      destruct (@split_at_success pre post pre' a a' E Hpre Hnf) as [-> ->].
      apply app_inj_tail in E. destruct E as [_ ->].
      apply Forall_app in Hran. destruct Hran as [_ Hra].
      inversion Hra as [|? ? Hra' _]; subst. unfold ran in Hra'.
      rewrite Ha in Ha'. inversion Ha'; subst.
      split; [reflexivity|]. split; [assumption|].
      split; [rewrite Hra', Ha; reflexivity | reflexivity].
  - intros j a Hj.
    destruct (@chained_nth batches passes w3 0%nat j a Hch Hj) as [E _].
    exact E.
Qed.

Lemma retry_bound_witness :
  let r := Downloader_download inOrder (serverNoRange (Some "200")) fixed100
             "u" "out" in
  List.length (attempts r) = 3%nat
  /\ outcome r
     = Rejected (DownloadFailed "u" "out"
                   (DownloadFailed "u" "out"
                      (BatchFailed (PartFailed RangeUnsupported)))).
Proof.
  intros r.
  destruct (@retry_bound inOrder (serverNoRange (Some "200")) fixed100
              "u" "out" (Int 200) eq_refl) as (_ & H & _).
  assert (Hall : Forall failed (attempts r)).
  { vm_compute. repeat constructor; eexists; reflexivity. }
  destruct (H Hall) as [Hlen Hlast].
  split; [exact Hlen|].
  destruct (Hlast ltac:(cbn; lia)) as (front & a & e & Ea & _ & He & Ho).
  unfold r. rewrite Ho. do 3 f_equal.
  assert (E : last (attempts r) a = a)
    by (unfold r; rewrite Ea; apply last_last).
  rewrite <- E in He. vm_compute in He. inversion He. reflexivity.
Defined.

(** ** No retries (C9) *)



(** ** Retries run on the plan made once (C1) *)




(** ** A resource of size zero (C8) *)

Lemma awaitAllInOrder_nil (env : Env) (url : string) (i : nat) (w : World) :
  awaitAllInOrder env url i [] w = (inl [], w).
Proof. reflexivity. Qed.

(** C8, as the code has it.  When the probe reports a size of 0 or no
    [content-length], size discovery succeeds with size 0 and the call goes
    on to planning.  With a fixed segment size [C > 0] it plans no segment,
    sends no ranged request and resolves with 0; with segment-count-driven
    planning it stores [Math.ceil (0 / partDeterminer (0))] as the segment
    size, and if the call rejects, it is a pass of the retry loop that
    failed. *)
Theorem zero_size_proceeds
    (env : Env) (url : string) (cl : option string) :
  head env = HeadResponse cl ->
  cl = None \/ cl = Some "" \/ cl = Some "0" ->
  (forall w, getFileSize env url w = (inl (Int 0), logged w [EvHead url]))
  /\ (forall cfg C filePath,
        chunkSizeB cfg = Int C -> 0 < C ->
        let r := Downloader_download inOrder env cfg url filePath in
        outcome r = Fulfilled (Int 0)
        /\ makesRequest r = false
        /\ heap (world r) = []
        /\ config_after r = cfg)
  /\ (forall sched cfg filePath,
        le (chunkSizeB cfg) (Int 0) = true ->
        let r := Downloader_download sched env cfg url filePath in
        chunkSizeB (config_after r)
        = ceil_div (Int 0) (Int (partDeterminer cfg (Int 0)))
        /\ ((exists e, outcome r = Rejected e) -> attempts r <> [])).
Proof.
  intros Hhead Hcl.
  assert (Hsize : forall w,
             getFileSize env url w = (inl (Int 0), logged w [EvHead url])).
  { intros w. rewrite (getFileSize_response env url w Hhead).
    destruct Hcl as [-> | [-> | ->]]; reflexivity. }
  split; [exact Hsize|]. split.
  - intros cfg C filePath HC Hpos r. subst r.
    unfold Downloader_download, download, makesRequest.
    rewrite Hsize, determineNumberOfChunks_eq, HC.
    replace (le (Int C) (Int 0)) with false
      by (symmetry; apply Z.leb_gt; exact Hpos).
    cbn [ceil_div]. destruct (Z.eqb_spec C 0); [lia|].
    rewrite cdiv_zero by assumption.
    assert (Hb : @batchChunks ref cfg (@nil nat) = Some []).
    { unfold batchChunks. cbn [List.length map].
      destruct (Z.leb_spec (maxConcurrentDownloads cfg) 0); [reflexivity|].
      destruct (Z.leb_spec (Z.of_nat 0) (maxConcurrentDownloads cfg));
        [reflexivity | lia]. }
    unfold createChunks. cbn [iterations Z.to_nat createLoop seq].
    cbv beta iota. rewrite Hb.
    destruct (Z.to_nat (maxRetries cfg)) as [|m]; cbn [retryLoop].
    + cbn. repeat split.
    + unfold inOrder. rewrite awaitAllInOrder_nil.
      cbn. repeat split.
  - intros sched cfg filePath Hle r. subst r.
    destruct (download_planned env url filePath (sched env url) cfg emptyWorld
                (S := Int 0)) as (batches & w3 & Hlog & Hd).
    { rewrite Hsize. reflexivity. }
    cbv zeta in Hd. rewrite Hle in Hd, Hlog.
    unfold Downloader_download.
    rewrite Hd. cbn [attempts outcome config_after world].
    pose proof (retryLoop_error (sched env url) batches
                  (Z.to_nat (maxRetries cfg)) 0 (Int 0) None w3) as Herr.
    split; [reflexivity|].
    intros [e He] Hnil.
    rewrite Hnil in Herr. cbn in Herr. rewrite Herr in He. discriminate.
Qed.

Lemma zero_size_proceeds_witness :
  let r := Downloader_download inOrder (serverOk (Some "0")) fixed100 "u" "out" in
  getFileSize (serverOk (Some "0")) "u" emptyWorld
  = (inl (Int 0), logged emptyWorld [EvHead "u"])
  /\ outcome r = Fulfilled (Int 0) /\ makesRequest r = false.
Proof.
  intros r.
  destruct (@zero_size_proceeds (serverOk (Some "0")) "u" (Some "0") eq_refl
              ltac:(right; right; reflexivity)) as (H1 & H2 & _).
  split; [apply H1|].
  destruct (H2 fixed100 100 "out" eq_refl ltac:(lia)) as (Ho & Hr & _).
  split; [exact Ho | exact Hr].
Defined.

(** C8, as stated, fails: with no [content-length] the call is not
    rejected.  With a fixed segment size it resolves with 0; with the
    default configuration it plans one segment of size 0 and sends the
    ranged request [bytes=0--1]. *)
Lemma zero_size_not_rejected :
  let r := Downloader_download inOrder (serverOk None) fixed100 "u" "out" in
  let r' := Downloader_download inOrder (serverOk None)
              defaultDownloaderConfig "u" "out" in
  head (serverOk None) = HeadResponse None
  /\ outcome r = Fulfilled (Int 0)
  /\ outcome r' = Fulfilled (Int 0)
  /\ log (world r')
     = [EvHead "u"; EvPartDeterminer (Int 0); EvGet "u" "bytes=0--1"].
Proof. repeat split. Qed.

(** ** The segment size written back into the configuration (C10) *)

Lemma downloadPart_quiet (env : Env) (url : string) (i : nat) (r : ref)
    (w : World) :
  existsb isPartDeterminer (log (snd (downloadPart env url i r w)))
  = existsb isPartDeterminer (log w).
Proof.
  destruct (nth_error (heap w) r) as [c|] eqn:Hc.
  - rewrite (downloadPart_eq env url i r w Hc). cbv zeta.
    assert (H1 : existsb isPartDeterminer
                   (log (logged w [EvGet url (getRange c)]))
                 = existsb isPartDeterminer (log w)).
    { cbn [log logged]. rewrite existsb_app. cbn. apply orb_false_r. }
    destruct (get env i (getRange c)) as [status body | e]; [|exact H1].
    destruct (status =? 200); [exact H1|].
    destruct (status =? 206); [|exact H1].
    destruct body as [p | e]; [|exact H1].
    cbn [snd log]. rewrite existsb_app, H1.
    destruct (snd (write c p)); cbn; apply orb_false_r.
  - unfold downloadPart, tryCatch, bind, deref. rewrite Hc. reflexivity.
Qed.

Lemma batchSum_quiet (env : Env) (url : string) (i : nat) (batch : list ref) :
  forall wb w,
    existsb isPartDeterminer (log (snd (batchSum env url i batch wb w)))
    = existsb isPartDeterminer (log w).
Proof.
  induction batch as [|r rest IH]; intros wb w; cbn [batchSum].
  - reflexivity.
  - unfold bind. pose proof (downloadPart_quiet env url i r w) as H.
    destruct (downloadPart env url i r w) as [[n | e] w1]; cbn [snd] in *.
    + rewrite IH. exact H.
    + exact H.
Qed.

Lemma downloadBatch_quiet (env : Env) (url : string) (i : nat)
    (batch : list ref) (w : World) :
  existsb isPartDeterminer (log (snd (downloadBatch env url i batch w)))
  = existsb isPartDeterminer (log w).
Proof.
  unfold downloadBatch, tryCatch.
  pose proof (batchSum_quiet env url i batch (Int 0) w) as H.
  destruct (batchSum env url i batch (Int 0) w) as [[n | e] w1]; exact H.
Qed.

Lemma inOrder_quiet (env : Env) (url : string) : quiet (inOrder env url).
Proof.
  intros i bs. unfold inOrder, awaitAllInOrder.
  induction bs as [|b rest IH]; intros w; cbn [settleInOrder].
  - reflexivity.
  - pose proof (downloadBatch_quiet env url i b w) as H.
    destruct (downloadBatch env url i b w) as [r w1]. cbn [snd] in H.
    specialize (IH w1).
    destruct (settleInOrder env url i rest w1) as [rs w2].
    cbn [snd] in *. congruence.
Qed.

Lemma retryLoop_quiet
    (awaitAll : nat -> list (list ref) -> Async (list number))
    (bs : list (list ref)) :
  quiet awaitAll ->
  forall remaining i wb err w,
    existsb isPartDeterminer
      (log (snd (fst (retryLoop awaitAll remaining i bs wb err w))))
    = existsb isPartDeterminer (log w).
Proof.
  intros Hq. induction remaining as [|n IH]; intros i wb err w; cbn [retryLoop].
  - reflexivity.
  - pose proof (Hq i bs w) as H.
    destruct (awaitAll i bs w) as [[results | e] w']; cbn [snd] in H.
    + exact H.
    + specialize (IH (S i) wb (Some e) w').
      destruct (retryLoop awaitAll n (S i) bs wb (Some e) w')
        as [[[wb' err'] w''] rest].
      cbn [fst snd] in *. congruence.
Qed.

(** A call on a configuration with a fixed segment size leaves the
    configuration as it is and does not invoke [partDeterminer]. *)
Lemma fixed_size_call (sched : Scheduler) (env : Env) (cfg : DownloaderConfig)
    (url filePath : string) :
  le (chunkSizeB cfg) (Int 0) = false ->
  (forall env url, quiet (sched env url)) ->
  let r := Downloader_download sched env cfg url filePath in
  config_after r = cfg /\ invokesPartDeterminer r = false.
Proof.
  intros Hle Hq r. subst r.
  unfold Downloader_download, invokesPartDeterminer, download.
  cbn [config_after world].
  pose proof (getFileSize_world env url emptyWorld) as Hw.
  destruct (getFileSize env url emptyWorld) as [[S | e] w1]; cbn [snd] in Hw;
    subst w1; [|split; reflexivity].
  rewrite determineNumberOfChunks_eq, Hle.
  destruct (createChunks cfg (ceil_div S (chunkSizeB cfg))
              (FileWriter (fs env) filePath) (logged emptyWorld [EvHead url]))
    as [[chunks w3]|] eqn:Ec; [|split; reflexivity].
  assert (Hlog : log w3 = [EvHead url]).
  { unfold createChunks in Ec.
    destruct (iterations (ceil_div S (chunkSizeB cfg))); [|discriminate].
    inversion Ec. reflexivity. }
  destruct (batchChunks cfg chunks) as [batches|];
    [|split; [reflexivity | cbn [world]; rewrite Hlog; reflexivity]].
  pose proof (retryLoop_quiet batches (Hq env url)
                (Z.to_nat (maxRetries cfg)) 0 (Int 0) None w3) as Hl.
  destruct (retryLoop (sched env url) (Z.to_nat (maxRetries cfg)) 0 batches
              (Int 0) None w3) as [[[wb err] w4] passes].
  cbn [fst snd config_after world] in *.
  split; [reflexivity|]. rewrite Hl, Hlog. reflexivity.
Qed.

(** C10, as the code has it.  A call with [chunkSizeB <= 0] on a resource
    of size [S1] leaves [Math.ceil (S1 / partDeterminer (S1))] in the
    configuration of its [Downloader].  When [S1 > 0] and
    [partDeterminer (S1) >= 0] that value is positive, and then every later
    call on the [Downloader] takes the fixed-size branch: it leaves the
    configuration as it is and does not invoke [partDeterminer]. *)
Theorem chunk_size_persists
    (sched : Scheduler) (env : Env) (cfg : DownloaderConfig)
    (url filePath : string) (S1 : Z) :
  le (chunkSizeB cfg) (Int 0) = true ->
  fst (getFileSize env url emptyWorld) = inl (Int S1) ->
  let r := Downloader_download sched env cfg url filePath in
  chunkSizeB (config_after r)
  = ceil_div (Int S1) (Int (partDeterminer cfg (Int S1)))
  /\ (0 < S1 -> 0 <= partDeterminer cfg (Int S1) ->
      gt (chunkSizeB (config_after r)) (Int 0) = true
      /\ ((forall env url, quiet (sched env url)) ->
          forall calls,
            Forall (fun r' => config_after r' = config_after r
                              /\ invokesPartDeterminer r' = false)
              (Downloader_downloads sched (config_after r) calls))).
Proof.
  intros Hle HS r.
  destruct (download_planned env url filePath (sched env url) cfg emptyWorld HS)
    as (batches & w3 & _ & Hd).
  cbv zeta in Hd. rewrite Hle in Hd.
  assert (Hcfg : config_after r
                 = set_chunkSizeB cfg
                     (ceil_div (Int S1) (Int (partDeterminer cfg (Int S1))))).
  { subst r. unfold Downloader_download. rewrite Hd. reflexivity. }
  rewrite Hcfg. split; [reflexivity|].
  intros HS1 Hpd.
  assert (Hgt : gt (ceil_div (Int S1) (Int (partDeterminer cfg (Int S1))))
                  (Int 0) = true).
  { cbn [ceil_div]. destruct (Z.eqb_spec (partDeterminer cfg (Int S1)) 0).
    - unfold signed_inf. destruct (Z.eqb_spec S1 0); [lia|].
      destruct (Z.ltb_spec 0 S1); [reflexivity | lia].
    - unfold gt, lt. apply Z.ltb_lt. apply cdiv_pos; lia. }
  split; [exact Hgt|].
  intros Hq calls.
  set (cfg' := set_chunkSizeB cfg _) in *.
  assert (Hfix : le (chunkSizeB cfg') (Int 0) = false)
    by (apply gt_not_le; exact Hgt).
  clearbody cfg'. clear - Hfix Hq.
  induction calls as [|[[env' url'] filePath'] rest IH]; cbn [Downloader_downloads].
  - constructor.
  - destruct (fixed_size_call sched env' cfg' url' filePath' Hfix Hq)
      as [Ec En].
    constructor; [split; assumption|].
    rewrite Ec. exact IH.
Qed.

Lemma chunk_size_persists_witness :
  let runs :=
    Downloader_downloads inOrder defaultDownloaderConfig
      [(serverOk (Some "200"), "u1", "out1");
       (serverOk (Some "500"), "u2", "out2")] in
  Forall (fun r' => chunkSizeB (config_after r') = Int 200) runs
  /\ map invokesPartDeterminer runs = [true; false].
Proof.
  intros runs.
  destruct (@chunk_size_persists inOrder (serverOk (Some "200"))
              defaultDownloaderConfig "u1" "out1" 200 eq_refl eq_refl)
    as [E H].
  destruct (H ltac:(lia) ltac:(cbn; lia)) as [_ Hall].
  specialize (Hall inOrder_quiet [(serverOk (Some "500"), "u2", "out2")]).
  split; [|reflexivity].
  subst runs. cbn [Downloader_downloads].
  constructor; [exact E|].
  eapply Forall_impl; [|exact Hall].
  intros r' [Er' _]. rewrite Er'. exact E.
Defined.

(** C10, as stated, fails: with a part count of -1, a first call on a
    resource of 10 bytes leaves the segment size -10, and the second call
    invokes [partDeterminer] again. *)
Lemma negative_count_keeps_count_branch :
  let runs :=
    Downloader_downloads inOrder negativeParts
      [(serverOk (Some "10"), "u1", "out1");
       (serverOk (Some "500"), "u2", "out2")] in
  map (fun r => chunkSizeB (config_after r)) runs = [Int (-10); Int (-500)]
  /\ map invokesPartDeterminer runs = [true; true].
Proof. split; reflexivity. Qed.

(* ================================================================== *)
(** * Further properties of the code *)

(** ** [batchChunks] on every configuration *)

Lemma concat_singletons (A : Type) (l : list A) :
  List.concat (map (fun x => [x]) l) = l.
Proof.
  induction l as [|x l IH]; cbn; [|rewrite IH]; reflexivity.
Qed.

Lemma Forall_singletons (A : Type) (l : list A) :
  Forall (fun b : list A => b <> []) (map (fun x => [x]) l).
Proof.
  induction l as [|x l IH]; cbn; constructor; [discriminate | exact IH].
Qed.

(** X1. [batchChunks] always ends, whatever the bound: its batches are the
    input cut into consecutive pieces, none of them empty, and with a
    positive bound [k] there are never more than [k] batches. *)
Theorem batchChunks_partition (A : Type) (cfg : DownloaderConfig)
    (chunks : list A) :
  exists batches,
    batchChunks cfg chunks = Some batches
    /\ List.concat batches = chunks
    /\ Forall (fun b => b <> []) batches
    /\ (0 < maxConcurrentDownloads cfg ->
        Z.of_nat (List.length batches) <= maxConcurrentDownloads cfg).
Proof.
  unfold batchChunks.
  set (k := maxConcurrentDownloads cfg).
  set (n := Z.of_nat (List.length chunks)).
  destruct (Z.leb_spec k 0) as [Hk | Hk].
  { eexists. split; [reflexivity|]. split; [apply concat_singletons|].
    split; [apply Forall_singletons | lia]. }
  destruct (Z.leb_spec n k) as [Hn | Hn].
  { eexists. split; [reflexivity|]. split; [apply concat_singletons|].
    split; [apply Forall_singletons|]. intros _. rewrite length_map. exact Hn. }
  set (m := cdiv n k).
  assert (Hm : 0 < m) by (apply cdiv_pos; lia).
  pose proof (cdiv_spec n Hk) as Hceil. fold m in Hceil.
  destruct (@batchLoop_spec A chunks m Hm (List.length chunks) 0)
    as (bs & E & Hcat & Hcount & Hnth); try lia.
  fold n in Hcount. rewrite Z.sub_0_r, Z.max_l in Hcount by lia.
  exists bs. split; [exact E|]. split; [exact Hcat|]. split; [|intros _; nia].
  apply Forall_forall. intros b Hb.
  destruct (In_nth bs b [] Hb) as (j & Hj & <-).
  rewrite (Hnth j Hj). intros Hnil.
  apply (f_equal (@List.length A)) in Hnil.
  rewrite length_firstn_skipn in Hnil. cbn in Hnil. subst n. nia.
Qed.

Lemma batchChunks_partition_witness :
  exists batches,
    batchChunks oneBatchTwoTries [10; 11; 12]%nat = Some batches
    /\ Z.of_nat (List.length batches) <= 1.
Proof.
  destruct (batchChunks_partition oneBatchTwoTries [10; 11; 12]%nat)
    as (batches & E & _ & _ & H).
  exists batches. split; [exact E|]. apply H. cbn. lia.
Defined.

(** ** [createChunks]: fresh objects *)

(** X2. [createChunks] ends unless the count is [Infinity].  For an integer
    count [z] it makes [max z 0] segments, none for a count that is zero,
    negative or [NaN].  The segments are distinct new chunk objects, placed
    after the objects that exist, which are left as they are, as is the
    trace; segment [i] starts at [i * chunkSizeB], has the configured
    segment size, nothing written and the writer that was given. *)
Theorem createChunks_allocates (cfg : DownloaderConfig) (n : number)
    (wr : WriteAt) (w : World) :
  (createChunks cfg n wr w = None <-> n = PInf)
  /\ forall refs w',
       createChunks cfg n wr w = Some (refs, w') ->
       log w' = log w
       /\ NoDup refs
       /\ (forall z, n = Int z -> List.length refs = Z.to_nat z)
       /\ List.length (heap w') = (List.length (heap w) + List.length refs)%nat
       /\ (forall r c, nth_error (heap w) r = Some c ->
                       nth_error (heap w') r = Some c)
       /\ (forall i r, nth_error refs i = Some r ->
             r = (List.length (heap w) + i)%nat
             /\ nth_error (heap w) r = None
             /\ exists c, nth_error (heap w') r = Some c
                          /\ start c = mul (Int (Z.of_nat i)) (chunkSizeB cfg)
                          /\ size c = chunkSizeB cfg
                          /\ current c = Int 0
                          /\ writer c = wr)
       /\ (le n (Int 0) = true \/ n = NaN -> refs = [] /\ heap w' = heap w).
Proof.
  unfold createChunks. split.
  - destruct n; cbn; split; congruence.
  - intros refs w' E.
    destruct (iterations n) as [k|] eqn:Hk; [|discriminate].
    inversion E; subst refs w'; clear E. cbn [heap log].
    split; [reflexivity|]. split; [apply seq_NoDup|].
    split; [|split; [|split; [|split]]].
    + intros z ->. cbn in Hk. inversion Hk. apply length_seq.
    + rewrite length_app, createLoop_length, length_seq. reflexivity.
    + intros r c Hr. rewrite nth_error_app1; [exact Hr|].
      apply nth_error_Some. congruence.
    + intros i r Hi.
      assert (Hlt : (i < k)%nat).
      { rewrite <- (length_seq k (List.length (heap w))).
        apply nth_error_Some. intros Hnone.
        change (@nth_error nat (seq (List.length (heap w)) k) i = Some r) in Hi.
        congruence. }
      assert (r = (List.length (heap w) + i)%nat) as ->.
      { apply (nth_error_nth _ _ O) in Hi. rewrite seq_nth in Hi by exact Hlt.
        now symmetry. }
      split; [reflexivity|]. split; [apply nth_error_None; lia|].
      rewrite nth_error_app2 by lia.
      replace (List.length (heap w) + i - List.length (heap w))%nat with i by lia.
      rewrite createLoop_nth by exact Hlt.
      eexists. split; [reflexivity|]. cbn [start size current writer].
      rewrite Z.add_0_l. repeat split.
    + intros Hn.
      assert (k = O) as ->.
      { destruct Hn as [Hn | ->]; [|cbn in Hk; congruence].
        destruct n as [z| | |]; cbn in Hn, Hk; try discriminate;
          inversion Hk; [|reflexivity].
        apply Z.leb_le in Hn. lia. }
      cbn. split; [reflexivity | apply app_nil_r].
Qed.

Lemma createChunks_allocates_witness :
  exists refs w' c,
    createChunks fixed100 (Int 3) (FileWriter okFs "out") emptyWorld
    = Some (refs, w')
    /\ List.length refs = 3%nat
    /\ nth_error (heap w') 2 = Some c /\ start c = Int 200.
Proof.
  destruct (createChunks fixed100 (Int 3) (FileWriter okFs "out") emptyWorld)
    as [[refs w']|] eqn:E; [|vm_compute in E; discriminate].
  destruct (createChunks_allocates fixed100 (Int 3) (FileWriter okFs "out")
              emptyWorld) as [_ H].
  destruct (H refs w' E) as (_ & _ & Hlen & _ & _ & Hnth & _).
  assert (Hr : nth_error refs 2 = Some 2%nat)
    by (vm_compute in E; inversion E; reflexivity).
  destruct (Hnth 2%nat 2%nat Hr) as (_ & _ & c & Hc & Hs & _).
  exists refs, w', c. split; [reflexivity|].
  split; [exact (Hlen 3 eq_refl)|]. split; [exact Hc | exact Hs].
Defined.

(** ** Planning against the size of the resource *)

(** X3. With a fixed segment size [C > 0] and a size [S >= 0], the planned
    segments cover the resource and none lies beyond it: every segment
    starts inside [[0, S)], every byte of [[0, S)] is in the range of
    exactly one segment, and the last segment ends less than [C] bytes
    after the end of the resource. *)
Theorem fixed_size_plan_covers (cfg : DownloaderConfig) (C S : Z)
    (wr : WriteAt) (w : World) :
  chunkSizeB cfg = Int C -> 0 < C -> 0 <= S ->
  exists n : nat,
    fst (determineNumberOfChunks cfg (Int S) w) = inl (Int (Z.of_nat n), cfg)
    /\ S <= Z.of_nat n * C < S + C
    /\ (forall c, In c (createLoop (chunkSizeB cfg) wr n 0) ->
          exists s, start c = Int s /\ 0 <= s < S)
    /\ (forall b, 0 <= b < S ->
          exists k c,
            nth_error (createLoop (chunkSizeB cfg) wr n 0) k = Some c
            /\ covers c b
            /\ forall k' c',
                 nth_error (createLoop (chunkSizeB cfg) wr n 0) k' = Some c' ->
                 covers c' b -> k' = k).
Proof.
  intros HC Hpos HS.
  pose proof (cdiv_spec S Hpos) as Hceil.
  assert (Hn : 0 <= cdiv S C) by nia.
  exists (Z.to_nat (cdiv S C)). rewrite Z2Nat.id by exact Hn.
  rewrite determineNumberOfChunks_eq, HC.
  replace (le (Int C) (Int 0)) with false by (symmetry; apply Z.leb_gt; lia).
  cbn [fst ceil_div]. destruct (Z.eqb_spec C 0); [lia|].
  split; [reflexivity|]. split; [nia|].
  assert (Hnth : forall k c,
             nth_error (createLoop (Int C) wr (Z.to_nat (cdiv S C)) 0) k = Some c ->
             (k < Z.to_nat (cdiv S C))%nat
             /\ start c = Int (Z.of_nat k * C) /\ size c = Int C).
  { intros k c Hk.
    assert (Hlt : (k < Z.to_nat (cdiv S C))%nat).
    { rewrite <- (createLoop_length (Int C) wr (Z.to_nat (cdiv S C)) 0).
      apply nth_error_Some. congruence. }
    rewrite createLoop_nth in Hk by exact Hlt. inversion Hk; subst.
    split; [exact Hlt|]. split; reflexivity. }
  split.
  - intros c Hc. apply In_nth_error in Hc. destruct Hc as [k Hk].
    destruct (Hnth k c Hk) as (Hlt & Hs & _).
    exists (Z.of_nat k * C). split; [exact Hs | nia].
  - intros b Hb.
    pose proof (Z.div_mod b C ltac:(lia)) as Eb.
    pose proof (Z.mod_pos_bound b C Hpos) as Bb.
    assert (0 <= b / C) by (apply Z.div_pos; lia).
    assert (Hk : (Z.to_nat (b / C) < Z.to_nat (cdiv S C))%nat) by nia.
    exists (Z.to_nat (b / C)). eexists.
    split; [apply createLoop_nth; exact Hk|]. split.
    + exists (Z.of_nat (Z.to_nat (b / C)) * C), C. cbn.
      split; [reflexivity|]. split; [reflexivity|].
      rewrite Z2Nat.id by assumption. nia.
    + intros k' c' Hk' (s & l & Es & El & Hcov).
      destruct (Hnth k' c' Hk') as (_ & Hs & Hl).
      rewrite Hs in Es. rewrite Hl in El.
      injection Es as <-. injection El as <-.
      assert (Z.of_nat k' = b / C) by nia. lia.
Qed.

Lemma fixed_size_plan_covers_witness :
  exists n : nat,
    fst (determineNumberOfChunks fixed100 (Int 450) emptyWorld)
    = inl (Int (Z.of_nat n), fixed100)
    /\ 450 <= Z.of_nat n * 100 < 550.
Proof.
  destruct (@fixed_size_plan_covers fixed100 100 450 (FileWriter okFs "out")
              emptyWorld eq_refl ltac:(lia) ltac:(lia))
    as (n & E & H & _).
  exists n. split; [exact E | exact H].
Defined.

(** X4. On a first call with the default configuration and a size [S > 0]:
    the count is 1, 4, 16 or 32 by the tier of [S], the segment size
    written into the configuration is [ceil (S / count)], the segments
    cover the resource and each of them starts inside it, and since the
    count never exceeds the default bound of 32 concurrent downloads, every
    segment is a batch of its own. *)
Theorem default_plan (S : Z) (w : World) (A : Type) (chunks : list A) :
  0 < S ->
  exists n C,
    fst (determineNumberOfChunks defaultDownloaderConfig (Int S) w)
    = inl (Int n, set_chunkSizeB defaultDownloaderConfig (Int C))
    /\ ((S < MB /\ n = 1) \/ (MB <= S < 10 * MB /\ n = 4)
        \/ (10 * MB <= S < 100 * MB /\ n = 16) \/ (100 * MB <= S /\ n = 32))
    /\ 0 < C
    /\ (n - 1) * C < S <= n * C
    /\ (Z.of_nat (List.length chunks) = n ->
        batchChunks (set_chunkSizeB defaultDownloaderConfig (Int C)) chunks
        = Some (map (fun chunk => [chunk]) chunks)).
Proof.
  intros HS.
  rewrite determineNumberOfChunks_eq.
  cbn [chunkSizeB defaultDownloaderConfig le fst partDeterminer lt].
  replace (-1 <=? 0) with true by reflexivity.
  assert (Hbatch : forall n C, n <= 32 ->
             Z.of_nat (List.length chunks) = n ->
             batchChunks (set_chunkSizeB defaultDownloaderConfig (Int C)) chunks
             = Some (map (fun chunk => [chunk]) chunks)).
  { intros n C Hn Hlen. unfold batchChunks.
    cbn [maxConcurrentDownloads set_chunkSizeB defaultDownloaderConfig].
    destruct (Z.leb_spec 32 0); [lia|].
    destruct (Z.leb_spec (Z.of_nat (List.length chunks)) 32); [reflexivity|lia]. }
  unfold MB in *.
  destruct (Z.ltb_spec S (1 * (1024 * 1024))) as [H1 | H1];
    [|destruct (Z.ltb_spec S (10 * (1024 * 1024))) as [H2 | H2];
      [|destruct (Z.ltb_spec S (100 * (1024 * 1024))) as [H3 | H3]]].
  - exists 1, (cdiv S 1). pose proof (@cdiv_spec S 1 ltac:(lia)).
    cbn [ceil_div Z.eqb]. split; [reflexivity|].
    split; [lia|]. split; [lia|]. split; [lia|]. apply Hbatch. lia.
  - exists 4, (cdiv S 4). pose proof (@cdiv_spec S 4 ltac:(lia)).
    cbn [ceil_div Z.eqb]. split; [reflexivity|].
    split; [lia|]. split; [lia|]. split; [lia|]. apply Hbatch. lia.
  - exists 16, (cdiv S 16). pose proof (@cdiv_spec S 16 ltac:(lia)).
    cbn [ceil_div Z.eqb]. split; [reflexivity|].
    split; [lia|]. split; [lia|]. split; [lia|]. apply Hbatch. lia.
  - exists 32, (cdiv S 32). pose proof (@cdiv_spec S 32 ltac:(lia)).
    cbn [ceil_div Z.eqb]. split; [reflexivity|].
    split; [lia|]. split; [lia|]. split; [lia|]. apply Hbatch. lia.
Qed.

Lemma default_plan_witness :
  exists n C,
    fst (determineNumberOfChunks defaultDownloaderConfig (Int (5 * MB))
           emptyWorld)
    = inl (Int n, set_chunkSizeB defaultDownloaderConfig (Int C))
    /\ n = 4 /\ 3 * C < 5 * MB <= 4 * C.
Proof.
  destruct (@default_plan (5 * MB) emptyWorld nat [] ltac:(cbn; lia))
    as (n & C & E & Htier & _ & Hcover & _).
  exists n, C. split; [exact E|].
  assert (n = 4) as -> by (unfold MB in Htier; lia).
  split; [reflexivity | exact Hcover].
Defined.

(** ** What [downloadPart] and [downloadBatch] touch *)

Lemma length_replace_nth (A : Type) (x : A) (l : list A) :
  forall n, List.length (replace_nth n x l) = List.length l.
Proof.
  induction l as [|y l IH]; intros [|n]; cbn; try reflexivity.
  now rewrite IH.
Qed.

Lemma nth_error_replace_nth_eq (A : Type) (x : A) (l : list A) :
  forall n y, nth_error l n = Some y -> nth_error (replace_nth n x l) n = Some x.
Proof.
  induction l as [|z l IH]; intros [|n] y H; cbn in *; try discriminate.
  - reflexivity.
  - eapply IH; eassumption.
Qed.

Lemma nth_error_replace_nth_neq (A : Type) (x : A) (l : list A) :
  forall n m, n <> m -> nth_error (replace_nth n x l) m = nth_error l m.
Proof.
  induction l as [|z l IH]; intros [|n] [|m] H; cbn; try reflexivity.
  - contradiction.
  - apply IH. congruence.
Qed.

Lemma replace_nth_same (A : Type) (l : list A) :
  forall n x, nth_error l n = Some x -> replace_nth n x l = l.
Proof.
  induction l as [|z l IH]; intros [|n] x H; cbn in *; try discriminate.
  - now inversion H.
  - now rewrite IH.
Qed.

Lemma write_result (c : DownloadChunk) (p : Buffer) :
  start (snd (fst (write c p))) = start c
  /\ size (snd (fst (write c p))) = size c
  /\ writer (snd (fst (write c p))) = writer c
  /\ match fst (fst (write c p)) with
     | inl n => current (snd (fst (write c p))) = add (current c) n
     | inr _ => snd (fst (write c p)) = c
     end
  /\ forall wc, snd (write c p) = Some wc ->
                wc = {| wc_buffer := p;
                        wc_offset := add (start c) (current c) |}.
Proof.
  unfold write. destruct (ge (current c) (size c)).
  - cbn. rewrite add_0_r. repeat split. discriminate.
  - destruct (writeAt (writer c) p (add (start c) (current c)));
      cbn; repeat split; intros wc E; now inversion E.
Qed.

(** X5. [downloadPart] works on its own segment only.  It sends one ranged
    request, with the range of the segment, and makes at most one write, at
    offset [start + current].  When it fails, every chunk object is as
    before; when it succeeds with [n], the segment has [current] advanced by
    [n] and nothing else changed, and the other chunk objects are as
    before. *)
Theorem downloadPart_frame (env : Env) (url : string) (i : nat) (r : ref)
    (w : World) :
  let res := fst (downloadPart env url i r w) in
  let w' := snd (downloadPart env url i r w) in
  List.length (heap w') = List.length (heap w)
  /\ (forall r', r' <> r -> nth_error (heap w') r' = nth_error (heap w) r')
  /\ (forall e, res = inr e -> heap w' = heap w)
  /\ (forall n, res = inl n ->
        exists c c',
          nth_error (heap w) r = Some c /\ nth_error (heap w') r = Some c'
          /\ start c' = start c /\ size c' = size c /\ writer c' = writer c
          /\ current c' = add (current c) n)
  /\ (forall c, nth_error (heap w) r = Some c ->
        exists call,
          log w' = (log w ++ EvGet url (getRange c) :: callEvents call)%list
          /\ forall wc, call = Some wc ->
                        wc_offset wc = add (start c) (current c)).
Proof.
  intros res w'. subst res w'.
  destruct (nth_error (heap w) r) as [c|] eqn:Hc.
  2:{ unfold downloadPart, tryCatch, bind, deref. rewrite Hc. cbn.
      repeat split; try discriminate. }
  rewrite (downloadPart_eq env url i r w Hc). cbv zeta.
  assert (Hquiet : forall res : Settled number,
    let w1 := logged w [EvGet url (getRange c)] in
    (forall n, res <> inl n) ->
    List.length (heap w1) = List.length (heap w)
    /\ (forall r', r' <> r -> nth_error (heap w1) r' = nth_error (heap w) r')
    /\ (forall e, res = inr e -> heap w1 = heap w)
    /\ (forall n, res = inl n ->
          exists c0 c',
            Some c = Some c0 /\ nth_error (heap w1) r = Some c'
            /\ start c' = start c0 /\ size c' = size c0
            /\ writer c' = writer c0 /\ current c' = add (current c0) n)
    /\ (forall c0, Some c = Some c0 ->
          exists call,
            log w1 = (log w ++ EvGet url (getRange c0) :: callEvents call)%list
            /\ forall wc, call = Some wc ->
                          wc_offset wc = add (start c0) (current c0))).
  { intros res w1 Hres. cbn [heap log logged w1].
    repeat split; try reflexivity.
    - intros n E. destruct (Hres n E).
    - intros c0 E. inversion E; subst. exists None. split; [reflexivity|].
      discriminate. }
  destruct (get env i (getRange c)) as [status body | e];
    [|apply Hquiet; discriminate].
  destruct (status =? 200); [apply Hquiet; discriminate|].
  destruct (status =? 206); [|apply Hquiet; discriminate].
  destruct body as [p | e]; [|apply Hquiet; discriminate].
  cbn [fst snd heap log logged].
  destruct (write_result c p) as (Hs & Hz & Hwr & Hcur & Hcall).
  split; [apply length_replace_nth|].
  split; [intros r' Hr'; apply nth_error_replace_nth_neq; congruence|].
  split; [|split].
  - intros e He. destruct (fst (fst (write c p))); [discriminate|].
    rewrite Hcur. apply replace_nth_same. exact Hc.
  - intros n Hn. destruct (fst (fst (write c p))) as [m|]; [|discriminate].
    inversion Hn; subst m.
    exists c, (snd (fst (write c p))).
    split; [reflexivity|].
    split; [eapply nth_error_replace_nth_eq; exact Hc|].
    repeat split; assumption.
  - intros c0 E. inversion E; subst c0. exists (snd (write c p)).
    split; [now rewrite <- app_assoc|].
    intros wc Hwc. rewrite (Hcall wc Hwc). reflexivity.
Qed.

Lemma downloadPart_frame_witness :
  let w := {| heap := createLoop (Int 100) (FileWriter okFs "out") 3 0;
              log := [] |} in
  exists c',
    nth_error (heap (snd (downloadPart (serverOk (Some "300")) "u" 0 1%nat w))) 1
    = Some c'
    /\ current c' = Int 100
    /\ nth_error (heap (snd (downloadPart (serverOk (Some "300")) "u" 0 1%nat w))) 2
       = nth_error (heap w) 2.
Proof.
  intros w.
  destruct (downloadPart_frame (serverOk (Some "300")) "u" 0 1%nat w)
    as (_ & Hother & _ & Hmine & _).
  destruct (Hmine (Int 100) eq_refl) as (c & c' & Hc & Hc' & _ & _ & _ & Hcur).
  exists c'. split; [exact Hc'|]. split.
  - rewrite Hcur. vm_compute in Hc. inversion Hc. reflexivity.
  - apply Hother. discriminate.
Defined.

Lemma batchSum_app (env : Env) (url : string) (i : nat) (pre : list ref) :
  forall rest acc w s w1,
    batchSum env url i pre acc w = (inl s, w1) ->
    batchSum env url i (pre ++ rest) acc w = batchSum env url i rest s w1.
Proof.
  induction pre as [|r pre IH]; intros rest acc w s w1 H; cbn [batchSum app] in *.
  - unfold ret in H. inversion H. reflexivity.
  - unfold bind in *.
    destruct (downloadPart env url i r w) as [[n | e] w'];
      [eapply IH; exact H | discriminate].
Qed.

(** X6. [downloadBatch] is sequential and stops at the first segment that
    fails: it rejects with the error of that segment, wrapped, in the world
    that segment left, so that the segments after it are not requested. *)
Theorem downloadBatch_first_failure (env : Env) (url : string) (i : nat)
    (pre post : list ref) (r : ref) (w w1 w2 : World) (s : number)
    (e : Thrown) :
  batchSum env url i pre (Int 0) w = (inl s, w1) ->
  downloadPart env url i r w1 = (inr e, w2) ->
  downloadBatch env url i (pre ++ r :: post) w = (inr (BatchFailed e), w2).
Proof.
  intros Hpre Hr. unfold downloadBatch, tryCatch.
  rewrite (batchSum_app env url i pre (r :: post) (Int 0) w Hpre).
  cbn [batchSum]. unfold bind. rewrite Hr. reflexivity.
Qed.

Lemma downloadBatch_first_failure_witness :
  let w := {| heap := createLoop (Int 100) (FileWriter okFs "out") 3 0;
              log := [] |} in
  fst (downloadBatch serverFlaky "u" 0 [0; 1; 2]%nat w)
  = inr (BatchFailed (PartFailed (PartStatus 500)))
  /\ filter isRequest (log (snd (downloadBatch serverFlaky "u" 0 [0; 1; 2]%nat w)))
     = [EvGet "u" "bytes=0-99";
        EvWriteAt {| wc_buffer := body100; wc_offset := Int 0 |};
        EvGet "u" "bytes=100-199"].
Proof.
  intros w.
  pose proof (@downloadBatch_first_failure serverFlaky "u" 0%nat [0%nat]
                [2%nat] 1%nat w
                (snd (batchSum serverFlaky "u" 0 [0%nat] (Int 0) w))
                (snd (downloadPart serverFlaky "u" 0 1%nat
                        (snd (batchSum serverFlaky "u" 0 [0%nat] (Int 0) w))))
                (Int 100) (PartFailed (PartStatus 500)) eq_refl eq_refl) as H.
  cbn [app] in H.
  assert (E : downloadBatch serverFlaky "u" 0 [0; 1; 2]%nat w
              = (inr (BatchFailed (PartFailed (PartStatus 500))),
                 snd (downloadPart serverFlaky "u" 0 1%nat
                        (snd (batchSum serverFlaky "u" 0 [0%nat] (Int 0) w)))))
    by exact H.
  rewrite E. split; reflexivity.
Defined.

(** ** A download that goes well *)

Lemma downloadPart_others (env : Env) (url : string) (i : nat) (r : ref)
    (w : World) :
  forall r', r' <> r ->
    nth_error (heap (snd (downloadPart env url i r w))) r'
    = nth_error (heap w) r'.
Proof.
  intros r' Hr'.
  destruct (nth_error (heap w) r) as [c|] eqn:Hc.
  2:{ unfold downloadPart, tryCatch, bind, deref. rewrite Hc. reflexivity. }
  rewrite (downloadPart_eq env url i r w Hc). cbv zeta.
  destruct (get env i (getRange c)) as [status body | e]; [|reflexivity].
  destruct (status =? 200); [reflexivity|].
  destruct (status =? 206); [|reflexivity].
  destruct body as [p | e]; [|reflexivity].
  cbn [snd heap]. apply nth_error_replace_nth_neq. congruence.
Qed.

Lemma downloadPart_ready (env : Env) (url path : string) (i : nat)
    (w : World) (r : ref) (n : Z) :
  ready env path i w r n ->
  fst (downloadPart env url i r w) = inl (Int n).
Proof.
  intros (c & p & Hc & Hcur & Hsize & Hwr & Hget & Hfs).
  rewrite (downloadPart_eq env url i r w Hc). cbv zeta. rewrite Hget.
  cbn [Z.eqb Pos.eqb fst].
  unfold write. rewrite Hcur, Hwr, add_0_r. unfold ge.
  rewrite (gt_not_le _ _ Hsize). cbn [writeAt FileWriter]. rewrite Hfs.
  reflexivity.
Qed.

Lemma ready_others (env : Env) (path : string) (i : nat) (w w' : World)
    (r : ref) (n : Z) :
  nth_error (heap w') r = nth_error (heap w) r ->
  ready env path i w r n -> ready env path i w' r n.
Proof.
  intros E (c & p & Hc & H). exists c, p. split; [congruence | exact H].
Qed.

Lemma batchSum_ready (env : Env) (url path : string) (i : nat)
    (count : ref -> Z) (rs : list ref) :
  forall acc w,
    NoDup rs ->
    (forall r, In r rs -> ready env path i w r (count r)) ->
    fst (batchSum env url i rs (Int acc) w) = inl (Int (acc + total count rs))
    /\ forall r', ~ In r' rs ->
         nth_error (heap (snd (batchSum env url i rs (Int acc) w))) r'
         = nth_error (heap w) r'.
Proof.
  induction rs as [|r rs IH]; intros acc w Hnd Hready; cbn [batchSum total fold_right].
  - cbn. rewrite Z.add_0_r. split; reflexivity.
  - inversion Hnd as [|? ? Hnotin Hnd']; subst.
    unfold bind.
    pose proof (downloadPart_ready url (Hready r (or_introl eq_refl))) as Hr.
    pose proof (@downloadPart_others env url i r w) as Hoth.
    destruct (downloadPart env url i r w) as [res w1]. cbn [fst snd] in *.
    subst res. cbn [add].
    destruct (IH (acc + count r) w1 Hnd') as [Hsum Hframe].
    { intros r' Hr'. eapply ready_others; [|apply Hready; right; exact Hr'].
      apply Hoth. intros ->. contradiction. }
    split.
    + rewrite Hsum. do 2 f_equal. fold (total count rs). lia.
    + intros r' Hr'. rewrite Hframe by (intros H; apply Hr'; right; exact H).
      apply Hoth. intros ->. apply Hr'. left. reflexivity.
Qed.

Lemma NoDup_app_disjoint (A : Type) (l1 l2 : list A) (a : A) :
  NoDup (l1 ++ l2) -> In a l1 -> In a l2 -> False.
Proof.
  induction l1 as [|x l1 IH]; cbn; intros Hnd H1 H2; [contradiction|].
  apply NoDup_cons_iff in Hnd. destruct Hnd as [Hx Hnd].
  destruct H1 as [-> | H1]; [|exact (IH Hnd H1 H2)].
  apply Hx. apply in_or_app. right. exact H2.
Qed.

Lemma settleInOrder_ready (env : Env) (url path : string) (i : nat)
    (count : ref -> Z) (batches : list (list ref)) :
  forall w,
    NoDup (List.concat batches) ->
    (forall r, In r (List.concat batches) -> ready env path i w r (count r)) ->
    fst (awaitAllInOrder env url i batches w)
    = inl (map (fun b => Int (total count b)) batches).
Proof.
  unfold awaitAllInOrder.
  induction batches as [|b rest IH]; intros w Hnd Hready;
    cbn [settleInOrder List.concat map] in *.
  - reflexivity.
  - apply NoDup_app_remove_l in Hnd as Hnd_rest.
    apply NoDup_app_remove_r in Hnd as Hnd_b.
    destruct (@batchSum_ready env url path i count b 0 w Hnd_b) as [Hsum Hframe].
    { intros r Hr. apply Hready. apply in_or_app. left. exact Hr. }
    unfold downloadBatch, tryCatch.
    destruct (batchSum env url i b (Int 0) w) as [res w1]. cbn [fst snd] in *.
    subst res.
    specialize (IH w1 Hnd_rest).
    destruct (settleInOrder env url i rest w1) as [rs w2]. cbn [fst snd] in *.
    cbn [promiseAll]. rewrite IH; [reflexivity|].
    intros r Hr.
    eapply ready_others; [|apply Hready; apply in_or_app; right; exact Hr].
    apply Hframe. intros Hb.
    exact (NoDup_app_disjoint _ _ _ Hnd Hb Hr).
Qed.

Lemma fold_add_totals (count : ref -> Z) (batches : list (list ref)) :
  forall acc,
    fold_left add (map (fun b => Int (total count b)) batches) (Int acc)
    = Int (acc + total count (List.concat batches)).
Proof.
  induction batches as [|b rest IH]; intros acc; cbn [map fold_left List.concat].
  - cbn. now rewrite Z.add_0_r.
  - cbn [add]. rewrite IH. f_equal.
    assert (Happ : forall l1 l2,
               total count (l1 ++ l2) = total count l1 + total count l2).
    { induction l1 as [|x l1 IHl]; intros l2; cbn; [reflexivity|].
      fold (total count (l1 ++ l2)). fold (total count l1).
      rewrite IHl. lia. }
    rewrite Happ. lia.
Qed.

Lemma total_available (S C : Z) (n : nat) :
  0 < C -> 0 <= S -> (Z.of_nat n - 1) * C < S <= Z.of_nat n * C ->
  total (fun k => Z.min C (S - Z.of_nat k * C)) (seq 0 n) = S.
Proof.
  intros HC HS Hn.
  assert (H : forall m, (m <= n)%nat ->
             total (fun k => Z.min C (S - Z.of_nat k * C)) (seq 0 m)
             = Z.min (Z.of_nat m * C) S).
  { induction m as [|m IH]; intros Hm.
    - cbn. nia.
    - rewrite seq_S. cbn [Nat.add].
      assert (Happ : forall l x,
                 total (fun k => Z.min C (S - Z.of_nat k * C)) (l ++ [x])
                 = total (fun k => Z.min C (S - Z.of_nat k * C)) l
                   + Z.min C (S - Z.of_nat x * C)).
      { induction l as [|y l IHl]; intros x; cbn; [lia|].
        fold (total (fun k => Z.min C (S - Z.of_nat k * C)) (l ++ [x])).
        fold (total (fun k => Z.min C (S - Z.of_nat k * C)) l).
        rewrite IHl. lia. }
      rewrite Happ, IH by lia. nia. }
  rewrite H by lia. nia.
Qed.

Lemma batchChunks_concat (A : Type) (cfg : DownloaderConfig)
    (chunks : list A) (batches : list (list A)) :
  batchChunks cfg chunks = Some batches -> List.concat batches = chunks.
Proof.
  unfold batchChunks.
  destruct (Z.leb_spec (maxConcurrentDownloads cfg) 0) as [Hk | Hk].
  { intros E. inversion E. apply concat_singletons. }
  destruct (Z.leb_spec (Z.of_nat (List.length chunks))
              (maxConcurrentDownloads cfg)) as [Hn | Hn].
  { intros E. inversion E. apply concat_singletons. }
  destruct (@batchLoop_spec A chunks
              (cdiv (Z.of_nat (List.length chunks)) (maxConcurrentDownloads cfg))
              ltac:(apply cdiv_pos; lia) (List.length chunks) 0)
    as (bs & E & Hcat & _); try lia.
  rewrite E. intros E'. inversion E'; subst. exact Hcat.
Qed.

(** The retry loop on a plan of [n] segments of size [C] that cover a
    resource of [S] bytes, against a server that honours the ranges: one
    pass, which fulfils with [S]. *)
Lemma run_planned (env : Env) (cfg : DownloaderConfig) (url path : string)
    (S C : Z) (n : nat) (bodyOf : string -> Buffer) (w2 : World) :
  heap w2 = [] -> chunkSizeB cfg = Int C -> 0 < C -> 0 <= S ->
  (Z.of_nat n - 1) * C < S <= Z.of_nat n * C ->
  0 < maxRetries cfg ->
  rangeServer S C bodyOf env ->
  forall chunks w3 batches,
    createChunks cfg (Int (Z.of_nat n)) (FileWriter (fs env) path) w2
    = Some (chunks, w3) ->
    batchChunks cfg chunks = Some batches ->
    exists w4 a,
      retryLoop (inOrder env url) (Z.to_nat (maxRetries cfg)) 0 batches
        (Int 0) None w3
      = (Int S, None, w4, [a]).
Proof.
  intros Hheap HC Hpos HS Hn Hmax (_ & Hget & Hfs) chunks w3 batches Ec Eb.
  unfold createChunks in Ec. cbn [iterations] in Ec.
  rewrite Nat2Z.id, Hheap, HC in Ec. cbn [List.length app] in Ec.
  inversion Ec; subst chunks w3; clear Ec.
  apply batchChunks_concat in Eb.
  set (count := fun k : ref => Z.min C (S - Z.of_nat k * C)).
  set (w3 := {| heap := createLoop (Int C) (FileWriter (fs env) path) n 0;
                log := log w2 |}).
  assert (Hready : forall r, In r (List.concat batches) ->
                     ready env path 0 w3 r (count r)).
  { intros r Hr. rewrite Eb in Hr. apply in_seq in Hr.
    assert (Hlt : (r < n)%nat) by lia.
    pose proof (createLoop_nth (Int C) (FileWriter (fs env) path) 0 Hlt) as Hc.
    rewrite Z.add_0_l in Hc. cbn [mul] in Hc.
    destruct (Hget (Z.of_nat r) ltac:(lia) ltac:(nia)) as [Hg Hlen].
    eexists _, _. split; [exact Hc|]. cbn [current size writer start].
    split; [reflexivity|]. split; [apply Z.ltb_lt; exact Hpos|].
    split; [reflexivity|]. split; [exact Hg|].
    rewrite Hfs. unfold count. now rewrite Hlen. }
  assert (Hnd : NoDup (List.concat batches)) by (rewrite Eb; apply seq_NoDup).
  pose proof (@settleInOrder_ready env url path 0%nat count batches w3 Hnd Hready)
    as Hall.
  destruct (Z.to_nat (maxRetries cfg)) as [|m] eqn:Em; [lia|].
  cbn [retryLoop]. unfold inOrder.
  destruct (awaitAllInOrder env url 0 batches w3) as [res w4].
  cbn [fst] in Hall. subst res.
  eexists w4, _. rewrite (fold_add_totals count batches 0), Eb.
  unfold count. rewrite (total_available n Hpos HS Hn). reflexivity.
Qed.

(** X7. With a fixed segment size [C > 0] and at least one attempt allowed, a
    download of a resource of [S] bytes from a server that answers every
    ranged request with 206 and the bytes it has in the range, onto a file
    system that writes every buffer in full, resolves with [S] after a
    single pass, and leaves the configuration as it is. *)
Theorem fixed_size_download_succeeds
    (env : Env) (cfg : DownloaderConfig) (url filePath : string)
    (S C : Z) (bodyOf : string -> Buffer) :
  chunkSizeB cfg = Int C -> 0 < C -> 0 <= S -> 0 < maxRetries cfg ->
  rangeServer S C bodyOf env ->
  let r := Downloader_download inOrder env cfg url filePath in
  outcome r = Fulfilled (Int S)
  /\ List.length (attempts r) = 1%nat
  /\ config_after r = cfg.
Proof.
  intros HC Hpos HS Hmax Hsrv r. subst r.
  pose proof Hsrv as Hsrv'.
  destruct Hsrv' as [(h & Hhead & Hne & Hparse) _].
  pose proof (cdiv_spec S Hpos) as Hceil.
  assert (Hn : 0 <= cdiv S C) by nia.
  unfold Downloader_download, download.
  rewrite (getFileSize_response env url emptyWorld Hhead).
  replace (headerOrZero (Some h)) with h by (destruct h; [contradiction | reflexivity]).
  rewrite Hparse, determineNumberOfChunks_eq, HC.
  replace (le (Int C) (Int 0)) with false by (symmetry; apply Z.leb_gt; lia).
  cbn [ceil_div]. destruct (Z.eqb_spec C 0); [lia|].
  rewrite <- (Z2Nat.id (cdiv S C)) by exact Hn.
  destruct (createChunks cfg (Int (Z.of_nat (Z.to_nat (cdiv S C))))
              (FileWriter (fs env) filePath) (logged emptyWorld [EvHead url]))
    as [[chunks w3]|] eqn:Ec; [|unfold createChunks in Ec; discriminate].
  destruct (@batchChunks_total ref cfg chunks) as [batches Eb]. rewrite Eb.
  destruct (@run_planned env cfg url filePath S C (Z.to_nat (cdiv S C)) bodyOf
              (logged emptyWorld [EvHead url]) eq_refl HC Hpos HS
              ltac:(rewrite Z2Nat.id by exact Hn; lia) Hmax Hsrv
              chunks w3 batches Ec Eb) as (w4 & a & EL).
  rewrite EL. cbn. repeat split.
Qed.

Lemma fixed_size_download_succeeds_witness :
  outcome (Downloader_download inOrder (serverOk (Some "200")) fixed100
             "u" "out")
  = Fulfilled (Int 200).
Proof.
  refine (proj1 (@fixed_size_download_succeeds (serverOk (Some "200")) fixed100
                   "u" "out" 200 100 (fun _ => body100)
                   eq_refl ltac:(lia) ltac:(lia) ltac:(cbn; lia) _)).
  split; [exists "200"; repeat split; discriminate|]. split.
  - intros k Hk HkS. cbv zeta. split; [reflexivity|].
    change (Z.of_nat (List.length body100)) with 100. lia.
  - reflexivity.
Defined.

(** X8. With segment-count-driven planning ([chunkSizeB <= 0]), a positive
    count [n] for a resource of [S > 0] bytes such that every segment of
    size [ceil (S / n)] starts inside the resource, and at least one attempt
    allowed, a download from such a server resolves with [S] after a single
    pass and leaves [ceil (S / n)] as the segment size of the
    configuration. *)
Theorem count_driven_download_succeeds
    (env : Env) (cfg : DownloaderConfig) (url filePath : string)
    (S : Z) (bodyOf : string -> Buffer) :
  let n := partDeterminer cfg (Int S) in
  le (chunkSizeB cfg) (Int 0) = true ->
  0 < S -> 0 < n -> (n - 1) * cdiv S n < S -> 0 < maxRetries cfg ->
  rangeServer S (cdiv S n) bodyOf env ->
  let r := Downloader_download inOrder env cfg url filePath in
  outcome r = Fulfilled (Int S)
  /\ List.length (attempts r) = 1%nat
  /\ config_after r = set_chunkSizeB cfg (Int (cdiv S n)).
Proof.
  intros n Hle HS Hn Hstart Hmax Hsrv r. subst r.
  pose proof Hsrv as Hsrv'.
  destruct Hsrv' as [(h & Hhead & Hne & Hparse) _].
  pose proof (cdiv_spec S Hn) as Hceil.
  assert (HC : 0 < cdiv S n) by (apply cdiv_pos; lia).
  unfold Downloader_download, download.
  rewrite (getFileSize_response env url emptyWorld Hhead).
  replace (headerOrZero (Some h)) with h by (destruct h; [contradiction | reflexivity]).
  rewrite Hparse, determineNumberOfChunks_eq, Hle. fold n.
  cbn [ceil_div]. destruct (Z.eqb_spec n 0); [lia|].
  set (cfg' := set_chunkSizeB cfg (Int (cdiv S n))).
  assert (En : Int n = Int (Z.of_nat (Z.to_nat n)))
    by (rewrite Z2Nat.id; [reflexivity | lia]).
  destruct (createChunks cfg' (Int n)
              (FileWriter (fs env) filePath)
              (logged (logged emptyWorld [EvHead url]) [EvPartDeterminer (Int S)]))
    as [[chunks w3]|] eqn:Ec; [|unfold createChunks in Ec; discriminate].
  destruct (@batchChunks_total ref cfg' chunks) as [batches Eb]. rewrite Eb.
  rewrite En in Ec.
  destruct (@run_planned env cfg' url filePath S (cdiv S n) (Z.to_nat n) bodyOf
              (logged (logged emptyWorld [EvHead url]) [EvPartDeterminer (Int S)])
              eq_refl eq_refl HC ltac:(lia)
              ltac:(rewrite Z2Nat.id by lia; nia) Hmax Hsrv
              chunks w3 batches Ec Eb) as (w4 & a & EL).
  rewrite EL. cbn. repeat split.
Qed.

Lemma count_driven_download_succeeds_witness :
  let r := Downloader_download inOrder (serverOk (Some "100"))
             defaultDownloaderConfig "u" "out" in
  outcome r = Fulfilled (Int 100)
  /\ chunkSizeB (config_after r) = Int 100.
Proof.
  intros r.
  destruct (@count_driven_download_succeeds (serverOk (Some "100"))
              defaultDownloaderConfig "u" "out" 100 (fun _ => body100)
              eq_refl ltac:(lia) ltac:(cbn; lia) ltac:(cbn; lia)
              ltac:(cbn; lia)) as (Ho & _ & Hc).
  - split; [exists "100"; repeat split; discriminate|]. split.
    + intros k Hk HkS. cbv zeta. split; [reflexivity|].
      change (Z.of_nat (List.length body100)) with 100.
      change (cdiv 100 (partDeterminer defaultDownloaderConfig (Int 100)))
        with 100 in *. lia.
    + reflexivity.
  - split; [exact Ho|]. subst r. rewrite Hc. reflexivity.
Defined.

(** ** Size discovery that fails *)

(** Size discovery fails exactly when the [HEAD] fetch throws; any response
    gives a size, whatever its header. *)
Lemma getFileSize_rejects_iff (env : Env) (url : string) (w : World) :
  (exists e, fst (getFileSize env url w) = inr e)
  <-> forall cl, head env <> HeadResponse cl.
Proof.
  split.
  - intros [e He] cl Hcl.
    rewrite (getFileSize_response env url w Hcl) in He. discriminate.
  - intros H. destruct (fst (getFileSize env url w)) as [S | e] eqn:E.
    + destruct (getFileSize_fulfilled env url w E) as (cl & Hcl & _).
      destruct (H cl Hcl).
    + eauto.
Qed.

(** X9. When the [HEAD] fetch throws, the call rejects at once: the retry loop
    makes no pass, nothing is planned, the configuration is as before and
    no ranged request is sent.  The cause is classified by the status of a
    thrown [Response] (404, 403, 401, 416, or any other status, which the
    error carries) and is the thrown value otherwise; it is wrapped by
    [getFileSize], by [DownloadImplementation.download] and by
    [Downloader.download]. *)
Theorem discovery_failure
    (sched : Scheduler) (env : Env) (cfg : DownloaderConfig)
    (url filePath : string) :
  (forall cl, head env <> HeadResponse cl) ->
  let r := Downloader_download sched env cfg url filePath in
  exists cause,
    outcome r
    = Rejected (DownloadFailed url filePath
                  (DownloadFailed url filePath (FileSizeFailed url cause)))
    /\ attempts r = []
    /\ config_after r = cfg
    /\ heap (world r) = []
    /\ log (world r) = [EvHead url]
    /\ (forall x, head env = HeadThrows x ->
          cause = ContentLengthError url (External x))
    /\ (forall status, head env = HeadThrowsResponse status ->
          (status = 404 -> cause = FileNotFound url)
          /\ (status = 403 -> cause = AccessDenied url)
          /\ (status = 401 -> cause = Unauthorized url)
          /\ (status = 416 -> cause = RangeNotSatisfiable url)
          /\ (status <> 404 -> status <> 403 -> status <> 401 ->
              status <> 416 -> cause = ContentLengthStatus url status)).
Proof.
  intros Hhead r. subst r.
  unfold Downloader_download, download, getFileSize, getContentLength,
    tryCatch, bind.
  cbn [emit].
  destruct (head env) as [cl | status | x] eqn:E.
  - destruct (Hhead cl eq_refl).
  - destruct (Z.eqb_spec status 404);
      [|destruct (Z.eqb_spec status 403);
        [|destruct (Z.eqb_spec status 401);
          [|destruct (Z.eqb_spec status 416)]]];
      cbn; eexists; (split; [reflexivity|]); repeat split;
      try discriminate; intros; try lia;
      match goal with
      | H : HeadThrowsResponse _ = HeadThrowsResponse _ |- _ => inversion H; subst
      end; try lia; reflexivity.
  - cbn. eexists. split; [reflexivity|]. repeat split; try discriminate.
    intros y Hy. inversion Hy. reflexivity.
Qed.

Lemma discovery_failure_witness :
  let env := {| head := HeadThrowsResponse 404;
                get := fun _ _ => GetResponse 206 (inl body100);
                fs := okFs |} in
  let r := Downloader_download inOrder env defaultDownloaderConfig "u" "out" in
  outcome r
  = Rejected (DownloadFailed "u" "out"
                (DownloadFailed "u" "out"
                   (FileSizeFailed "u" (FileNotFound "u"))))
  /\ attempts r = [] /\ chunkSizeB (config_after r) = Int (-1).
Proof.
  intros env r.
  destruct (@discovery_failure inOrder env defaultDownloaderConfig "u" "out"
              ltac:(discriminate))
    as (cause & Ho & Ha & Hc & _ & _ & _ & Hs).
  destruct (Hs 404 eq_refl) as (H404 & _).
  subst r. rewrite Ho, Ha, Hc, (H404 eq_refl). repeat split.
Defined.

(** ** The shape of a rejection and the number of passes *)


Lemma rejected_discovery_run (sched : Scheduler) (env : Env)
    (cfg : DownloaderConfig) (url filePath : string) (e : Thrown) :
  fst (getFileSize env url emptyWorld) = inr e ->
  let r := Downloader_download sched env cfg url filePath in
  outcome r = Rejected (DownloadFailed url filePath
                          (DownloadFailed url filePath e))
  /\ config_after r = cfg
  /\ world r = logged emptyWorld [EvHead url]
  /\ attempts r = [].
Proof.
  intros He r. subst r. unfold Downloader_download, download.
  pose proof (getFileSize_world env url emptyWorld) as Hw.
  destruct (getFileSize env url emptyWorld) as [[S | e'] w1];
    cbn [fst snd] in *; [discriminate|].
  inversion He; subst. repeat split.
Qed.



(** ** Nothing to download *)

Lemma no_segments_run (env : Env) (cfg : DownloaderConfig)
    (url filePath : string) (S : number) :
  fst (getFileSize env url emptyWorld) = inl S ->
  le (chunkSizeB cfg) (Int 0) = false ->
  iterations (ceil_div S (chunkSizeB cfg)) = Some O ->
  let r := Downloader_download inOrder env cfg url filePath in
  outcome r = Fulfilled (Int 0)
  /\ config_after r = cfg
  /\ world r = logged emptyWorld [EvHead url].
Proof.
  intros HS Hle Hit r. subst r. unfold Downloader_download, download.
  pose proof (getFileSize_world env url emptyWorld) as Hw.
  destruct (getFileSize env url emptyWorld) as [[S' | e'] w1];
    cbn [fst snd] in *; [|discriminate].
  inversion HS; subst S' w1.
  rewrite determineNumberOfChunks_eq, Hle.
  unfold createChunks. rewrite Hit.
  assert (Hb : @batchChunks ref cfg (@nil nat) = Some []).
  { unfold batchChunks. cbn [List.length map].
    destruct (Z.leb_spec (maxConcurrentDownloads cfg) 0); [reflexivity|].
    destruct (Z.leb_spec (Z.of_nat 0) (maxConcurrentDownloads cfg));
      [reflexivity | lia]. }
  cbn [createLoop seq]. cbv beta iota. rewrite Hb.
  destruct (Z.to_nat (maxRetries cfg)) as [|m]; cbn [retryLoop].
  - cbn. unfold logged. cbn. repeat split.
  - unfold inOrder. rewrite awaitAllInOrder_nil.
    cbn. unfold logged. cbn. repeat split.
Qed.

Lemma nothing_to_download_aux (env : Env) (cfg : DownloaderConfig)
    (url filePath : string) (S : number) :
  fst (getFileSize env url emptyWorld) = inl S ->
  le (chunkSizeB cfg) (Int 0) = false ->
  chunkSizeB cfg = PInf \/ chunkSizeB cfg = NaN ->
  let r := Downloader_download inOrder env cfg url filePath in
  outcome r = Fulfilled (Int 0)
  /\ config_after r = cfg
  /\ world r = logged emptyWorld [EvHead url].
Proof.
  intros HS Hle HC.
  apply (@no_segments_run env cfg url filePath S); try assumption.
  assert (Hfin : S = NaN \/ exists z, S = Int z).
  { destruct (getFileSize_fulfilled env url emptyWorld HS) as (cl & _ & ->).
    apply parseInt_finite. }
  destruct HC as [-> | ->].
  - destruct Hfin as [-> | [z ->]]; reflexivity.
  - destruct S; reflexivity.
Qed.

(** X11. With a segment size that is not [<= 0], a call has nothing to fetch
    when the reported size does not parse ([NaN]), is zero or negative, or
    when the segment size is [Infinity] or [NaN]: it plans no segment,
    sends no ranged request, and resolves with 0 as if the download had
    succeeded. *)
Theorem nothing_to_download
    (env : Env) (cfg : DownloaderConfig) (url filePath : string) (S : number) :
  fst (getFileSize env url emptyWorld) = inl S ->
  le (chunkSizeB cfg) (Int 0) = false ->
  S = NaN \/ (exists z, S = Int z /\ z <= 0)
  \/ chunkSizeB cfg = PInf \/ chunkSizeB cfg = NaN ->
  let r := Downloader_download inOrder env cfg url filePath in
  outcome r = Fulfilled (Int 0)
  /\ makesRequest r = false
  /\ heap (world r) = []
  /\ config_after r = cfg.
Proof.
  intros HS Hle Hcase r.
  assert (Hfin : S = NaN \/ exists z, S = Int z).
  { destruct (getFileSize_fulfilled env url emptyWorld HS) as (cl & _ & ->).
    apply parseInt_finite. }
  assert (Hit : iterations (ceil_div S (chunkSizeB cfg)) = Some O).
  { destruct Hcase as [-> | [(z & -> & Hz) | [HC | HC]]].
    - reflexivity.
    - destruct (chunkSizeB cfg) as [c | | |]; cbn in *; try reflexivity;
        try discriminate.
      apply Z.leb_gt in Hle.
      destruct (Z.eqb_spec c 0); [lia|]. cbn. f_equal.
      pose proof (@cdiv_spec z c Hle). nia.
    - rewrite HC. destruct Hfin as [-> | [z ->]]; reflexivity.
    - rewrite HC. destruct S; reflexivity. }
  destruct (no_segments_run env cfg url filePath HS Hle Hit) as (Ho & Hc & Hw).
  subst r. unfold makesRequest. rewrite Hw.
  repeat split; assumption.
Qed.

Lemma nothing_to_download_witness :
  let r := Downloader_download inOrder (serverOk (Some "unknown")) fixed100
             "u" "out" in
  fst (getFileSize (serverOk (Some "unknown")) "u" emptyWorld) = inl NaN
  /\ outcome r = Fulfilled (Int 0) /\ makesRequest r = false.
Proof.
  intros r. split; [reflexivity|].
  destruct (@nothing_to_download (serverOk (Some "unknown")) fixed100 "u" "out"
              NaN eq_refl eq_refl (or_introl eq_refl)) as (Ho & Hr & _).
  split; [exact Ho | exact Hr].
Defined.

(** X12. A segment size that planning made [Infinity] or [NaN] stays.  A
    segment-count-driven call whose reported size does not parse, or whose
    part count is 0 for a size [>= 0], leaves [NaN] or [Infinity] as the
    segment size of the [Downloader]; after that no call on it sends a
    ranged request or changes the configuration again, and each one that
    resolves resolves with 0. *)
Theorem degenerate_size_persists
    (env : Env) (cfg : DownloaderConfig) (url filePath : string) (S : number) :
  le (chunkSizeB cfg) (Int 0) = true ->
  fst (getFileSize env url emptyWorld) = inl S ->
  S = NaN \/ (exists z, S = Int z /\ 0 <= z /\ partDeterminer cfg S = 0) ->
  let r := Downloader_download inOrder env cfg url filePath in
  (chunkSizeB (config_after r) = PInf \/ chunkSizeB (config_after r) = NaN)
  /\ forall calls,
       Forall (fun r' => config_after r' = config_after r
                         /\ makesRequest r' = false
                         /\ forall n, outcome r' = Fulfilled n -> n = Int 0)
         (Downloader_downloads inOrder (config_after r) calls).
Proof.
  intros Hle HS Hcase r.
  destruct (download_planned env url filePath (inOrder env url) cfg emptyWorld HS)
    as (batches & w3 & _ & Hd).
  cbv zeta in Hd. rewrite Hle in Hd.
  assert (Hcfg : config_after r
                 = set_chunkSizeB cfg (ceil_div S (Int (partDeterminer cfg S)))).
  { subst r. unfold Downloader_download. rewrite Hd. reflexivity. }
  rewrite Hcfg. clear Hcfg Hd r.
  set (cfg' := set_chunkSizeB cfg _).
  assert (Hdeg : chunkSizeB cfg' = PInf \/ chunkSizeB cfg' = NaN).
  { subst cfg'. cbn [chunkSizeB set_chunkSizeB].
    destruct Hcase as [-> | (z & -> & Hz & Hpd)]; [right; reflexivity|].
    rewrite Hpd. cbn. unfold signed_inf.
    destruct (Z.eqb_spec z 0); [right; reflexivity|].
    destruct (Z.ltb_spec 0 z); [left; reflexivity | lia]. }
  split; [exact Hdeg|].
  assert (Hfix : le (chunkSizeB cfg') (Int 0) = false)
    by (destruct Hdeg as [-> | ->]; reflexivity).
  clearbody cfg'. clear - Hdeg Hfix.
  induction calls as [|[[env' url'] filePath'] rest IH];
    cbn [Downloader_downloads]; [constructor|].
  assert (Hcall : let r' := Downloader_download inOrder env' cfg' url' filePath' in
                  config_after r' = cfg' /\ makesRequest r' = false
                  /\ forall n, outcome r' = Fulfilled n -> n = Int 0).
  { destruct (fst (getFileSize env' url' emptyWorld)) as [S' | e] eqn:E.
    - destruct (@nothing_to_download_aux env' cfg' url' filePath' S' E Hfix Hdeg)
        as (Ho & Hc & Hw).
      cbv zeta. unfold makesRequest. rewrite Ho, Hc, Hw.
      repeat split. intros n Hn. now inversion Hn.
    - destruct (rejected_discovery_run inOrder env' cfg' url' filePath' E)
        as (Ho & Hc & Hw & _).
      cbv zeta. unfold makesRequest. rewrite Ho, Hc, Hw.
      repeat split. discriminate. }
  cbv zeta in Hcall. destruct Hcall as (Hc & Hr & Ho).
  constructor; [repeat split; assumption|].
  rewrite Hc. exact IH.
Qed.

Lemma degenerate_size_persists_witness :
  let runs :=
    Downloader_downloads inOrder defaultDownloaderConfig
      [(serverOk (Some "unknown"), "u1", "out1");
       (serverOk (Some "500"), "u2", "out2")] in
  map (fun r => chunkSizeB (config_after r)) runs = [NaN; NaN]
  /\ Forall (fun r' => makesRequest r' = false) (tl runs).
Proof.
  intros runs. split; [reflexivity|].
  destruct (@degenerate_size_persists (serverOk (Some "unknown"))
              defaultDownloaderConfig "u1" "out1" NaN eq_refl eq_refl
              (or_introl eq_refl)) as [_ H].
  specialize (H [(serverOk (Some "500"), "u2", "out2")]).
  subst runs. cbn [Downloader_downloads tl].
  eapply Forall_impl; [|exact H].
  intros r' (_ & Hr & _). exact Hr.
Defined.

(** ** What a call does to the configuration *)

(** X13. A call writes nothing into the configuration but [chunkSizeB]: the
    bounds and the two determiners are as before, whatever the schedule and
    the outcome; and [chunkSizeB] itself is as before when it was not
    [<= 0] or when size discovery failed. *)
Theorem config_frame
    (sched : Scheduler) (env : Env) (cfg : DownloaderConfig)
    (url filePath : string) :
  let r := Downloader_download sched env cfg url filePath in
  config_after r = set_chunkSizeB cfg (chunkSizeB (config_after r))
  /\ (le (chunkSizeB cfg) (Int 0) = false -> config_after r = cfg)
  /\ ((exists e, fst (getFileSize env url emptyWorld) = inr e) ->
      config_after r = cfg).
Proof.
  intros r. subst r.
  assert (Heta : set_chunkSizeB cfg (chunkSizeB cfg) = cfg)
    by (destruct cfg; reflexivity).
  destruct (fst (getFileSize env url emptyWorld)) as [S | e] eqn:E.
  - destruct (download_planned env url filePath (sched env url) cfg emptyWorld E)
      as (batches & w3 & _ & Hd).
    cbv zeta in Hd. unfold Downloader_download. rewrite Hd.
    cbn [config_after].
    destruct (le (chunkSizeB cfg) (Int 0)).
    + split; [reflexivity|]. split; [discriminate|].
      intros [e He]. discriminate.
    + split; [symmetry; exact Heta|]. split; reflexivity.
  - destruct (rejected_discovery_run sched env cfg url filePath E)
      as (_ & Hc & _).
    cbv zeta in Hc. rewrite Hc.
    split; [symmetry; exact Heta|]. split; reflexivity.
Qed.

Lemma config_frame_witness :
  config_after (Downloader_download inOrder (serverOk (Some "500")) fixed100
                  "u" "out")
  = fixed100.
Proof.
  exact (proj1 (proj2 (@config_frame inOrder (serverOk (Some "500")) fixed100
                         "u" "out")) eq_refl).
Defined.

(** X14. [chunkSizeDeterminer] is never consulted: a call with another
    [chunkSizeDeterminer] in the configuration settles in the same way, in
    the same world, after the same passes, and leaves the same
    configuration but for that field. *)
Theorem chunkSizeDeterminer_unused
    (sched : Scheduler) (env : Env) (cfg : DownloaderConfig)
    (url filePath : string) (f : number -> Z) :
  let r := Downloader_download sched env cfg url filePath in
  let r' := Downloader_download sched env (withChunkSizeDeterminer cfg f)
              url filePath in
  outcome r' = outcome r
  /\ world r' = world r
  /\ attempts r' = attempts r
  /\ config_after r' = withChunkSizeDeterminer (config_after r) f.
Proof.
  intros r r'. subst r r'. unfold Downloader_download, download.
  destruct (getFileSize env url emptyWorld) as [[S | e] w1];
    [|repeat split].
  rewrite !determineNumberOfChunks_eq.
  cbn [chunkSizeB withChunkSizeDeterminer partDeterminer].
  destruct (le (chunkSizeB cfg) (Int 0)).
  - unfold createChunks, batchChunks.
    cbn [chunkSizeB set_chunkSizeB withChunkSizeDeterminer
         maxConcurrentDownloads maxRetries].
    destruct (iterations (Int (partDeterminer cfg S))); [|repeat split].
    match goal with
    | |- context [match ?b with Some _ => _ | None => _ end] =>
        destruct b as [batches|]; [|repeat split]
    end.
    match goal with
    | |- context [retryLoop ?a ?b ?c ?d ?e ?f ?g] =>
        destruct (retryLoop a b c d e f g) as [[[wb err] w4] passes]
    end.
    repeat split.
  - unfold createChunks, batchChunks.
    cbn [chunkSizeB set_chunkSizeB withChunkSizeDeterminer
         maxConcurrentDownloads maxRetries].
    destruct (iterations (ceil_div S (chunkSizeB cfg))); [|repeat split].
    match goal with
    | |- context [match ?b with Some _ => _ | None => _ end] =>
        destruct b as [batches|]; [|repeat split]
    end.
    match goal with
    | |- context [retryLoop ?a ?b ?c ?d ?e ?f ?g] =>
        destruct (retryLoop a b c d e f g) as [[[wb err] w4] passes]
    end.
    repeat split.
Qed.

(** ** The range header identifies the segment *)

Lemma string_of_uint_digits (d : Decimal.uint) :
  digitsOnly (NilEmpty.string_of_uint d) = true.
Proof.
  induction d; cbn; try reflexivity; exact IHd.
Qed.

Lemma Z_to_string_digits (z : Z) : 0 <= z -> digitsOnly (Z_to_string z) = true.
Proof.
  intros Hz. unfold Z_to_string. destruct z as [|p|p]; [reflexivity | | lia].
  cbn [Z.to_int NilZero.string_of_int NilZero.string_of_uint].
  destruct (Pos.to_uint p) as [|u|u|u|u|u|u|u|u|u|u]; [reflexivity|..];
    match goal with
    | |- digitsOnly (NilZero.string_of_uint ?d) = true =>
        exact (string_of_uint_digits d)
    end.
Qed.

Lemma Z_to_string_inj (z z' : Z) : Z_to_string z = Z_to_string z' -> z = z'.
Proof.
  unfold Z_to_string. intros E.
  assert (Hnn : forall x, Z.to_int x <> Decimal.Pos Decimal.Nil
                          /\ Z.to_int x <> Decimal.Neg Decimal.Nil).
  { intros [|p|p]; cbn; split; try discriminate; intros H; inversion H;
      eapply Unsigned.to_uint_nonnil; eassumption. }
  apply DecimalZ.to_int_inj.
  assert (H : Some (Z.to_int z) = Some (Z.to_int z')).
  { rewrite <- (NilZero.isi (Z.to_int z)) by apply Hnn.
    rewrite <- (NilZero.isi (Z.to_int z')) by apply Hnn.
    now rewrite E. }
  now inversion H.
Qed.

Lemma split_at_dash (a : string) :
  forall a' b b',
    digitsOnly a = true -> digitsOnly a' = true ->
    a ++ String "-" b = a' ++ String "-" b' -> a = a' /\ b = b'.
Proof.
  induction a as [|c a IH]; intros [|c' a'] b b' Ha Ha' E; cbn in *.
  - inversion E. split; reflexivity.
  - inversion E; subst c'. cbn in Ha'. discriminate.
  - inversion E; subst c. cbn in Ha. discriminate.
  - inversion E; subst c'.
    apply andb_true_iff in Ha, Ha'. destruct Ha as [_ Ha], Ha' as [_ Ha'].
    destruct (IH a' b b' Ha Ha' ltac:(assumption)) as [-> ->].
    split; reflexivity.
Qed.

(** X15. The header of [getRange] identifies the segment: two segments with
    integer bounds and starts [>= 0] that send the same [Range] header have
    the same start offset and the same size. *)
Theorem getRange_injective (c c' : DownloadChunk) (s l s' l' : Z) :
  start c = Int s -> size c = Int l ->
  start c' = Int s' -> size c' = Int l' ->
  0 <= s -> 0 <= s' ->
  getRange c = getRange c' -> s = s' /\ l = l'.
Proof.
  intros Hs Hl Hs' Hl' Hpos Hpos' E.
  unfold getRange in E. rewrite Hs, Hl, Hs', Hl' in E.
  cbn [add sub neg toString] in E.
  cbn [append] in E.
  repeat match type of E with
         | String ?x _ = String ?x _ => injection E as E
         end.
  destruct (split_at_dash _ _ _ _ (Z_to_string_digits Hpos)
              (Z_to_string_digits Hpos') E) as [Ea Eb].
  apply Z_to_string_inj in Ea, Eb. lia.
Qed.

Lemma getRange_injective_witness :
  let c := {| writer := FileWriter okFs "out"; start := Int 100;
              size := Int 100; current := Int 0 |} in
  let c' := {| writer := FileWriter okFs "out"; start := Int 100;
               size := Int 100; current := Int 42 |} in
  getRange c = getRange c' /\ (100 = 100 /\ 100 = 100).
Proof.
  intros c c'. split; [reflexivity|].
  exact (@getRange_injective c c' 100 100 100 100 eq_refl eq_refl eq_refl
           eq_refl ltac:(lia) ltac:(lia) eq_refl).
Defined.
